(** * Screenplay editor: block utilities, editing handlers and scene saving

    A shallow embedding of
      - [src/utils/blockUtils.ts] and [src/constants/editorConstants.ts]
        (classification, successor types, numbering, pagination),
      - [src/hooks/useBlockHandlers.ts] (Enter, format change, content
        change, Tab and Backspace on the block list),
      - [src/lib/screenplay/saveManager.ts] (leases, conflict check, scene
        decomposition, chunking of long action text),
      - [reconstructBlocksFromScenes] of the writing page,
      - the undo history of the editor component, and the extraction of
        characters and the grouping by scene of
        [src/hooks/useScreenplaySave.ts],
    followed by the properties established about them.

    Modelling conventions.
      - Text is a Rocq [string] read as 7-bit ASCII: one character is one
        UTF-16 code unit and one UTF-8 byte, so [length] and the size of a
        [Blob] agree.  Bytes from 128 up are kept but have no case and are
        not white space.
      - A JavaScript regular expression literal is embedded as a value of
        [Regex.regex] and run by a derivative matcher.
      - A JavaScript [number] that holds a height is an exact rational [Q];
        the program computes the same expressions in binary64.
      - The remote store is an explicit finite map from document paths to
        documents; every remote write is appended to a log.
      - The DOM (caret, focus, timers) is reduced to the values the handlers
        read from it, which become arguments. *)

From Stdlib Require Import Ascii String QArith Qround Lqa ZArith Lia.
From stdpp Require Import base option list strings pretty gmap.

Open Scope string_scope.
Open Scope list_scope.

(** ** JavaScript string primitives *)

Module Text.

(** [s1 === s2] on strings. *)
Notation "a === b" := (String.eqb a b) (at level 70, no associativity).

(** Truthiness of a string: the empty string is falsy. *)
Definition truthy (s : string) : bool :=
  match s with "" => false | String _ _ => true end.

(** [a || b] on strings. *)
Definition orElse (a b : string) : string := if truthy a then a else b.

(** White space of [\s] and of [trim] within ASCII. *)
Definition isWhiteSpace (c : ascii) : bool :=
  match c with
  | "009" | "010" | "011" | "012" | "013" | " " => true
  | _ => false
  end%char.

Definition isUpperLetter (c : ascii) : bool :=
  (65 <=? nat_of_ascii c)%nat && (nat_of_ascii c <=? 90)%nat.

Definition isLowerLetter (c : ascii) : bool :=
  (97 <=? nat_of_ascii c)%nat && (nat_of_ascii c <=? 122)%nat.

Definition upperChar (c : ascii) : ascii :=
  if isLowerLetter c then ascii_of_nat (nat_of_ascii c - 32) else c.

(** [s.toUpperCase()] *)
Fixpoint toUpperCase (s : string) : string :=
  match s with
  | "" => ""
  | String c s' => String (upperChar c) (toUpperCase s')
  end.

Fixpoint trimStart (s : string) : string :=
  match s with
  | "" => ""
  | String c s' => if isWhiteSpace c then trimStart s' else s
  end.

Fixpoint trimEnd (s : string) : string :=
  match s with
  | "" => ""
  | String c s' =>
      let t := trimEnd s' in
      if isWhiteSpace c && negb (truthy t) then "" else String c t
  end.

(** [s.trim()] *)
Definition trim (s : string) : string := trimEnd (trimStart s).

(** [s.startsWith(p)] *)
Definition startsWith (s p : string) : bool := String.prefix p s.

(** [s.endsWith(p)] *)
Fixpoint endsWith (s p : string) : bool :=
  (s === p) ||
  match s with
  | "" => false
  | String _ s' => endsWith s' p
  end.

(** [s.length] as a JavaScript number. *)
Definition len (s : string) : Z := Z.of_nat (String.length s).

(** [s.substring(0, k)] and [s.substring(k)] for [k >= 0]. *)
Fixpoint substringTo (k : nat) (s : string) : string :=
  match k, s with
  | S k', String c s' => String c (substringTo k' s')
  | _, _ => ""
  end.

Fixpoint substringFrom (k : nat) (s : string) : string :=
  match k, s with
  | S k', String _ s' => substringFrom k' s'
  | _, _ => s
  end.

(** [xs.join(sep)] *)
Fixpoint join (sep : string) (xs : list string) : string :=
  match xs with
  | [] => ""
  | [x] => x
  | x :: rest => x +:+ sep +:+ join sep rest
  end.

(** The one-character string ["\n"]. *)
Definition newline : string := String "010"%char "".

(** [s.repeat(n)] *)
Fixpoint repeat (s : string) (n : nat) : string :=
  match n with
  | O => ""
  | S n' => s +:+ repeat s n'
  end.

(** [s.replace(/^\(|\)$/g, '')]: drop a leading "(" and a trailing ")". *)
Definition dropLeadingParen (s : string) : string :=
  match s with
  | String "("%char s' => s'
  | _ => s
  end.

Fixpoint dropTrailingParen (s : string) : string :=
  match s with
  | "" => ""
  | String c s' =>
      match s' with
      | "" => if Ascii.eqb c ")" then "" else s
      | _ => String c (dropTrailingParen s')
      end
  end.

Definition stripParens (s : string) : string :=
  dropTrailingParen (dropLeadingParen s).

(** [s.replace(/^\)/, '')] *)
Definition dropLeadingClose (s : string) : string :=
  match s with
  | String ")"%char s' => s'
  | _ => s
  end.

End Text.

(** ** Regular expressions *)

Module Regex.

Inductive regex : Type :=
| Void : regex
| Eps : regex
| Cls : (ascii -> bool) -> regex
| Seq : regex -> regex -> regex
| Alt : regex -> regex -> regex
| Star : regex -> regex.

(** The words of a regular expression. *)
Inductive lang : regex -> string -> Prop :=
| lang_eps : lang Eps ""
| lang_cls p c : p c = true -> lang (Cls p) (String c "")
| lang_seq r1 r2 s1 s2 : lang r1 s1 -> lang r2 s2 -> lang (Seq r1 r2) (s1 +:+ s2)
| lang_alt_l r1 r2 s : lang r1 s -> lang (Alt r1 r2) s
| lang_alt_r r1 r2 s : lang r2 s -> lang (Alt r1 r2) s
| lang_star_nil r : lang (Star r) ""
| lang_star_cons r s1 s2 : lang r s1 -> lang (Star r) s2 -> lang (Star r) (s1 +:+ s2).

Fixpoint nullable (r : regex) : bool :=
  match r with
  | Void => false
  | Eps => true
  | Cls _ => false
  | Seq r1 r2 => nullable r1 && nullable r2
  | Alt r1 r2 => nullable r1 || nullable r2
  | Star _ => true
  end.

Fixpoint deriv (c : ascii) (r : regex) : regex :=
  match r with
  | Void => Void
  | Eps => Void
  | Cls p => if p c then Eps else Void
  | Seq r1 r2 =>
      if nullable r1
      then Alt (Seq (deriv c r1) r2) (deriv c r2)
      else Seq (deriv c r1) r2
  | Alt r1 r2 => Alt (deriv c r1) (deriv c r2)
  | Star r1 => Seq (deriv c r1) (Star r1)
  end.

(** Whole-string match. *)
Fixpoint matches (r : regex) (s : string) : bool :=
  match s with
  | "" => nullable r
  | String c s' => matches (deriv c r) s'
  end.

(** Pattern atoms. *)
Definition chr (c : ascii) : regex := Cls (Ascii.eqb c).
(** A literal character under the [i] flag. *)
Definition chrI (c : ascii) : regex :=
  Cls (fun x => Ascii.eqb (Text.upperChar x) (Text.upperChar c)).
Definition anyChar : regex := Cls (fun _ => true).
Definition space : regex := Cls Text.isWhiteSpace.
Definition opt (r : regex) : regex := Alt r Eps.

Fixpoint lit (s : string) : regex :=
  match s with
  | "" => Eps
  | String c s' => Seq (chr c) (lit s')
  end.

Fixpoint litI (s : string) : regex :=
  match s with
  | "" => Eps
  | String c s' => Seq (chrI c) (litI s')
  end.

Fixpoint alts (rs : list regex) : regex :=
  match rs with
  | [] => Void
  | [r] => r
  | r :: rest => Alt r (alts rest)
  end.

(** [/^r$/.test(s)], [/^r/.test(s)] and [/r$/.test(s)]. *)
Definition testWhole (r : regex) (s : string) : bool := matches r s.
Definition testStart (r : regex) (s : string) : bool :=
  matches (Seq r (Star anyChar)) s.
Definition testEnd (r : regex) (s : string) : bool :=
  matches (Seq (Star anyChar) r) s.

End Regex.

(** ** The block model ([src/types/index.ts]) *)

Record Block : Type := mkBlock {
  id : string;
  type : string;
  content : string;
  number : option nat;
}.

(** [{ ...block, number: n }], [{ ...block, content: c }], ... *)
Definition withNumber (b : Block) (n : option nat) : Block :=
  {| id := id b; type := type b; content := content b; number := n |}.
Definition withContent (b : Block) (c : string) : Block :=
  {| id := id b; type := type b; content := c; number := number b |}.
Definition withType (b : Block) (t : string) : Block :=
  {| id := id b; type := t; content := content b; number := number b |}.

(** A block literal without a number: [{ id, type, content }]. *)
Definition newBlock (i t c : string) : Block :=
  {| id := i; type := t; content := c; number := None |}.

(** ** [src/constants/editorConstants.ts] *)

Module Constants.

Definition BLOCK_HEIGHTS : list (string * Q) :=
  [ ("scene-heading", 2.5%Q);
    ("action", 2%Q);
    ("character", 2%Q);
    ("parenthetical", 1.8%Q);
    ("dialogue", 2%Q);
    ("transition", 2.5%Q);
    ("text", 2%Q);
    ("shot", 2.5%Q) ].

Definition MAX_PAGE_HEIGHT : Q := 55.

Definition BLOCK_TYPES : list string :=
  [ "scene-heading"; "action"; "character"; "parenthetical";
    "dialogue"; "transition"; "text"; "shot" ].

End Constants.

(** ** [src/utils/blockUtils.ts] *)

Module BlockUtils.
Import Text Regex Constants.

(** [table[key]] on an object literal: the own property, if any.  Names
    inherited from [Object.prototype] ([constructor], [toString], ...) are
    not block types and are left out. *)
Fixpoint property {A : Type} (table : list (string * A)) (key : string) : option A :=
  match table with
  | [] => None
  | (k, v) :: rest => if k === key then Some v else property rest key
  end.

(** [x || d] on an optional number: [undefined] and [0] are falsy. *)
Definition orNumber (x : option Q) (d : Q) : Q :=
  match x with
  | Some h => if Qeq_bool h 0 then d else h
  | None => d
  end.

(** [a > b] on numbers. *)
Definition gt (a b : Q) : bool := negb (Qle_bool a b).

Definition baseHeightOf (ty : string) : Q :=
  orNumber (property BLOCK_HEIGHTS ty) 2.

Definition contentLinesOf (text : string) : Z :=
  Z.max 1 (Qceiling (inject_Z (len text) / 75)).

Definition calculateBlockHeight (block : Block) : Q :=
  let baseHeight := baseHeightOf (type block) in
  let contentLines := contentLinesOf (content block) in
  baseHeight * inject_Z contentLines.

(** The three variables of [organizeBlocksIntoPages]. *)
Record PageState : Type := mkPageState {
  pages : list (list Block);
  currentPage : list Block;
  currentHeight : Q;
}.

Definition nonEmpty {A : Type} (l : list A) : bool :=
  match l with [] => false | _ :: _ => true end.

(** [pages.push([...currentPage]); currentPage = []; currentHeight = 0] *)
Definition closePage (st : PageState) : PageState :=
  {| pages := pages st ++ [currentPage st];
     currentPage := [];
     currentHeight := 0 |}.

Definition addBlockToPage (st : PageState) (block : Block) : PageState :=
  let blockHeight := calculateBlockHeight block in
  let st1 :=
    if gt (currentHeight st + blockHeight) MAX_PAGE_HEIGHT
       && nonEmpty (currentPage st)
    then closePage st else st in
  {| pages := pages st1;
     currentPage := currentPage st1 ++ [block];
     currentHeight := currentHeight st1 + blockHeight |}.

(** [nextBlock && (nextBlock.type === 'dialogue' || ... 'parenthetical')] *)
Definition speechFollows (nextBlock : option Block) : bool :=
  match nextBlock with
  | Some nb => (type nb === "dialogue") || (type nb === "parenthetical")
  | None => false
  end.

(** One iteration of the [for] loop; [nextBlock] is [blocks[i + 1]]. *)
Definition pageStep (st : PageState) (block : Block) (nextBlock : option Block)
  : PageState :=
  if (type block === "character") && speechFollows nextBlock then
    let combinedHeight :=
      (calculateBlockHeight block
       + from_option calculateBlockHeight 0 nextBlock)%Q in
    let st1 :=
      if gt (currentHeight st + combinedHeight) MAX_PAGE_HEIGHT then
        if nonEmpty (currentPage st) then closePage st else st
      else st in
    addBlockToPage st1 block
  else addBlockToPage st block.

Fixpoint pageLoop (st : PageState) (blocks : list Block) : PageState :=
  match blocks with
  | [] => st
  | block :: rest => pageLoop (pageStep st block (head rest)) rest
  end.

Definition organizeBlocksIntoPages (blocks : list Block) : list (list Block) :=
  let st := pageLoop {| pages := []; currentPage := []; currentHeight := 0 |} blocks in
  if nonEmpty (currentPage st) then pages st ++ [currentPage st] else pages st.

(** [/^(INT|EXT|INT\/EXT|I\/E)\.?\s/i] *)
Definition sceneHeadingPattern : regex :=
  Seq (alts [litI "INT"; litI "EXT"; litI "INT/EXT"; litI "I/E"])
      (Seq (opt (chr ".")) space).

(** [/TO:$/] *)
Definition toColonPattern : regex := lit "TO:".

(** [/^FADE (IN|OUT)|^DISSOLVE/i] *)
Definition fadePatternI : regex :=
  Alt (Seq (litI "FADE ") (Alt (litI "IN") (litI "OUT"))) (litI "DISSOLVE").

(** [/^[A-Z][A-Z\s.()]*$/] *)
Definition characterTail (c : ascii) : bool :=
  isUpperLetter c || isWhiteSpace c
  || Ascii.eqb c "." || Ascii.eqb c "(" || Ascii.eqb c ")".
Definition characterPattern : regex :=
  Seq (Cls isUpperLetter) (Star (Cls characterTail)).

Definition detectFormat (text : string) : option string :=
  let trimmed := trim text in
  if testStart sceneHeadingPattern trimmed then Some "scene-heading"
  else if testEnd toColonPattern trimmed || testStart fadePatternI trimmed
  then Some "transition"
  else if testWhole characterPattern trimmed && (0 <? len trimmed)%Z
  then Some "character"
  else if startsWith trimmed "(" && endsWith trimmed ")"
  then Some "parenthetical"
  else None.

(** [/^(INT\.|EXT\.|INT\.\/EXT\.|EXT\.\/INT\.|I\/E\.)$/i] *)
Definition scenePrefixPattern : regex :=
  alts [litI "INT."; litI "EXT."; litI "INT./EXT."; litI "EXT./INT."; litI "I/E."].

Definition getNextBlockType (currentType content : string) (isDoubleEnter : bool)
  : string :=
  let isScenePrefix := testWhole scenePrefixPattern (trim content) in
  if (currentType === "scene-heading") && isScenePrefix then "scene-heading"
  else if currentType === "scene-heading" then "action"
  else
    match detectFormat content with
    | Some detectedFormat => detectedFormat
    | None =>
        if currentType === "action" then "character"
        else if currentType === "character" then "dialogue"
        else if currentType === "parenthetical" then "dialogue"
        else if currentType === "dialogue"
             then (if isDoubleEnter then "action" else "character")
        else if currentType === "transition" then "scene-heading"
        else "action"
    end.

(** The callback of [blocks.map] with the two counters it closes over,
    threaded through the list in document order. *)
Fixpoint numberBlocks (sceneCount dialogueCount : nat) (blocks : list Block)
  : list Block :=
  match blocks with
  | [] => []
  | block :: rest =>
      if type block === "scene-heading" then
        let sceneCount' := S sceneCount in
        withNumber block (Some sceneCount')
          :: numberBlocks sceneCount' dialogueCount rest
      else if type block === "dialogue" then
        let dialogueCount' := S dialogueCount in
        withNumber block (Some dialogueCount')
          :: numberBlocks sceneCount dialogueCount' rest
      else withNumber block None :: numberBlocks sceneCount dialogueCount rest
  end.

Definition updateBlockNumbers (blocks : list Block) : list Block :=
  numberBlocks 0 0 blocks.

End BlockUtils.

(** ** [src/hooks/useBlockHandlers.ts]

    Each handler is a function from the block list of the editor state to
    the list it hands to [updateBlocks]; a handler that returns early hands
    back the list unchanged. *)

Module Handlers.
Import Text Regex Constants BlockUtils.

(** What [handleEnterKey] reads from the page: the text of the element, the
    caret offset, whether the previous key press is less than 500 ms old,
    and [Date.now().toString()] for the id of the new block. *)
Record Dom : Type := mkDom {
  textContent : string;
  caretPos : nat;
  withinDoubleEnterDelay : bool;
  freshId : string;
}.

(** [blocks.find(b => b.id === blockId)] with its index. *)
Definition findBlock (blocks : list Block) (blockId : string)
  : option (nat * Block) :=
  list_find (fun b => id b = blockId) blocks.

(** [blocks.splice(index, 0, block)] *)
Definition spliceIn (index : nat) (block : Block) (blocks : list Block)
  : list Block :=
  take index blocks ++ block :: drop index blocks.

(** [blocks.filter(b => b.id !== blockId)] *)
Definition removeId (blockId : string) (blocks : list Block) : list Block :=
  filter (fun b => id b ≠ blockId) blocks.

(** [blocks.filter((_, index) => index !== i)] *)
Definition removeAt (i : nat) (blocks : list Block) : list Block :=
  take i blocks ++ drop (S i) blocks.

Definition handleEnterKey (blocks : list Block) (blockId : string) (dom : Dom)
  : list Block * string :=
  match findBlock blocks blockId with
  | None => (blocks, blockId)
  | Some (currentIndex, currentBlock) =>
      let content := textContent dom in
      let textBefore := substringTo (caretPos dom) content in
      let textAfter := substringFrom (caretPos dom) content in
      let isDoubleEnter :=
        withinDoubleEnterDelay dom
        && (type currentBlock === "dialogue")
        && (trim textBefore === "") in
      if type currentBlock === "transition" then
        let newBlock := newBlock (freshId dom) "scene-heading" "" in
        let updatedBlocks :=
          if negb (trim textBefore === "")
          then <[currentIndex := withContent currentBlock
                                   (toUpperCase (trim textBefore))]> blocks
          else blocks in
        (spliceIn (currentIndex + 1) newBlock updatedBlocks, freshId dom)
      else if isDoubleEnter then
        let updatedBlocks := removeId blockId blocks in
        let newBlock := newBlock (freshId dom) "action" textAfter in
        (updatedBlocks ++ [newBlock], freshId dom)
      else if type currentBlock === "parenthetical" then
        let updatedBlocks :=
          if negb (endsWith textBefore ")")
          then <[currentIndex := withContent currentBlock (textBefore +:+ ")")]> blocks
          else blocks in
        let newBlock :=
          newBlock (freshId dom) "dialogue" (trim (dropLeadingClose textAfter)) in
        (spliceIn (currentIndex + 1) newBlock updatedBlocks, freshId dom)
      else
        let newBlockType := getNextBlockType (type currentBlock) textBefore false in
        let updatedBlocks :=
          <[currentIndex := withContent currentBlock textBefore]> blocks in
        let newBlock := newBlock (freshId dom) newBlockType textAfter in
        (spliceIn (currentIndex + 1) newBlock updatedBlocks, freshId dom)
  end.

(** The content transformations of [handleFormatChange]. *)
Definition formatContent (currentBlock : Block) (ty : string) : string :=
  let newContent := content currentBlock in
  let newContent :=
    if ty === "parenthetical" then
      let content := trim (content currentBlock) in
      if (content === "") || (content === "()") then "()"
      else if negb (startsWith content "(") || negb (endsWith content ")")
      then "(" +:+ stripParens content +:+ ")"
      else newContent
    else if (type currentBlock === "parenthetical")
            && negb (ty === "parenthetical")
    then trim (stripParens (content currentBlock))
    else newContent in
  let newContent :=
    if (ty === "character") && negb (type currentBlock === "character")
    then toUpperCase newContent else newContent in
  let newContent :=
    if (ty === "scene-heading")
       && negb (testStart sceneHeadingPattern newContent)
    then (if trim newContent === "" then "" else newContent)
    else newContent in
  if (ty === "transition")
     && negb (testEnd toColonPattern newContent
              || testStart fadePatternI newContent)
  then
    if trim newContent === "" then ""
    else if negb (endsWith newContent "TO:") then toUpperCase newContent
    else newContent
  else newContent.

Definition handleFormatChange (blocks : list Block) (activeBlock : option string)
    (ty : string) : list Block :=
  match activeBlock with
  | None => blocks
  | Some active =>
      match findBlock blocks active with
      | None => blocks
      | Some (_, currentBlock) =>
          let newContent := formatContent currentBlock ty in
          let updatedBlocks :=
            map (fun block =>
                   if id block === active
                   then withContent (withType block ty) newContent
                   else block) blocks in
          updateBlockNumbers updatedBlocks
      end
  end.

(** [isTransitionContent], with [/^FADE (IN|OUT)|^DISSOLVE/]. *)
Definition fadePattern : regex :=
  Alt (Seq (lit "FADE ") (Alt (lit "IN") (lit "OUT"))) (lit "DISSOLVE").

Definition isTransitionContent (content : string) : bool :=
  let trimmedContent := toUpperCase (trim content) in
  endsWith trimmedContent "TO:" || testStart fadePattern trimmedContent.

(** [createAndFocusSceneHeading(afterIndex)] on [updatedBlocks]. *)
Definition createAndFocusSceneHeading (fresh : string) (afterIndex : nat)
    (updatedBlocks : list Block) : list Block :=
  spliceIn (afterIndex + 1) (newBlock fresh "scene-heading" "") updatedBlocks.

(** The callback of the regular [updatedBlocks.map]. *)
Definition retype (blockId newContent : string) (block : Block) : Block :=
  if negb (id block === blockId) then block
  else if type block === "parenthetical" then
    let content := trim newContent in
    let content := if negb (startsWith content "(") then "(" +:+ content else content in
    let content := if negb (endsWith content ")") then content +:+ ")" else content in
    withContent block content
  else if isTransitionContent newContent && negb (type block === "transition")
  then withContent (withType block "transition") (toUpperCase (trim newContent))
  else
    let detectedFormat := detectFormat newContent in
    withType (withContent block newContent)
             (from_option (fun t => t) (type block) detectedFormat).

(** The regular path of [handleContentChange] (no forced type). *)
Definition regularContentChange (blocks : list Block) (blockId newContent : string)
    (currentBlockIndex : nat) (currentBlock : Block) (fresh : string)
  : list Block :=
  let updatedBlocks := map (retype blockId newContent) blocks in
  let wasTransitionCreated :=
    match updatedBlocks !! currentBlockIndex with
    | Some updatedBlock =>
        (type updatedBlock === "transition")
        && negb (type currentBlock === "transition")
    | None => false
    end in
  if wasTransitionCreated
  then createAndFocusSceneHeading fresh currentBlockIndex updatedBlocks
  else updatedBlocks.

(** [forcedType] is an optional argument; an absent or empty one is falsy. *)
Definition handleContentChange (blocks : list Block) (blockId newContent : string)
    (forcedType : option string) (fresh : string) : list Block :=
  match findBlock blocks blockId with
  | None => blocks
  | Some (currentBlockIndex, currentBlock) =>
      if trim newContent === "" then removeAt currentBlockIndex blocks
      else if truthy (default "" forcedType) then
        let forced := default "" forcedType in
        let updatedBlocks :=
          map (fun block =>
                 if negb (id block === blockId) then block
                 else withContent (withType block forced) newContent)
              blocks in
        if forced === "transition"
        then createAndFocusSceneHeading fresh currentBlockIndex updatedBlocks
        else updatedBlocks
      else
        regularContentChange blocks blockId newContent
                             currentBlockIndex currentBlock fresh
  end.

Inductive Key : Type := Enter | Tab | Backspace | OtherKey.

(** [BLOCK_TYPES.indexOf(t)]; [None] stands for [-1]. *)
Fixpoint indexOf (t : string) (types : list string) : option nat :=
  match types with
  | [] => None
  | x :: rest => if x === t then Some 0%nat else S <$> indexOf t rest
  end.

(** [BLOCK_TYPES[(currentIndex + 1) % BLOCK_TYPES.length]] *)
Definition nextTypeOf (t : string) : string :=
  let next :=
    match indexOf t BLOCK_TYPES with
    | Some currentIndex => (S currentIndex) mod (length BLOCK_TYPES)
    | None => 0%nat
    end in
  nth next BLOCK_TYPES "".

(** [handleKeyDown] without the clipboard shortcuts, which leave the
    block list alone. *)
Definition handleKeyDown (blocks : list Block) (activeBlock : option string)
    (key : Key) (blockId : string) (dom : Dom) : list Block :=
  match key with
  | Enter =>
      if negb (trim (textContent dom) === "") || (textContent dom === "")
      then fst (handleEnterKey blocks blockId dom)
      else blocks
  | Tab =>
      match findBlock blocks blockId with
      | None => blocks
      | Some (_, currentBlock) =>
          handleFormatChange blocks activeBlock (nextTypeOf (type currentBlock))
      end
  | Backspace =>
      if textContent dom === "" then
        match findBlock blocks blockId with
        | Some (S _, _) => removeId blockId blocks
        | _ => blocks
        end
      else blocks
  | OtherKey => blocks
  end.

(** Every transition block is directly followed by a scene heading. *)
Fixpoint transitionsFollowed (blocks : list Block) : bool :=
  match blocks with
  | [] => true
  | block :: rest =>
      (if type block === "transition"
       then match rest with
            | next :: _ => type next === "scene-heading"
            | [] => false
            end
       else true)
      && transitionsFollowed rest
  end.

End Handlers.

(** ** [src/types/screenplay.ts] and the remote store *)

Record SceneLock : Type := mkSceneLock {
  lockSceneId : string;
  lockUserId : string;
  acquired : Z;
  expires : Z;
}.

Record Scene : Type := mkScene {
  sceneDocId : string;
  screenplayIdOf : string;
  sceneNumber : option nat;
  sceneHeading : string;
  status : string;
  lastModified : Z;
  modifiedBy : string;
}.

Record Dialogue : Type := mkDialogue {
  characterName : string;
  text : string;
  parenthetical : option string;
}.

Record SceneContent : Type := mkSceneContent {
  contentId : string;
  contentSceneId : string;
  action : option string;
  actionChunks : option (list string);
  dialogues : list Dialogue;
}.

Record ScreenplayMeta : Type := mkScreenplayMeta {
  metaId : string;
  ownerId : string;
  version : Z;
  metaLastModified : Z;
}.

Record ChangeEntry : Type := mkChangeEntry {
  changeTimestamp : Z;
  changeUserId : string;
  changeSceneId : string;
  changeType : string;
}.

Record Conflict : Type := mkConflict {
  conflictSceneId : string;
  userEmail : string;
  timestamp : Z;
}.

Record SaveResult : Type := mkSaveResult {
  success : bool;
  error : option string;
  conflicts : option (list Conflict);
}.

Inductive Doc : Type :=
| LockDoc : SceneLock -> Doc
| SceneDoc : Scene -> Doc
| ContentDoc : SceneContent -> Doc
| ScreenplayDoc : ScreenplayMeta -> Doc
| ChangeDoc : ChangeEntry -> Doc.

(** A remote write: [set], [update] (given as the document it leaves) or
    [delete] on a document path. *)
Inductive Write : Type :=
| WSet : string -> Doc -> Write
| WUpdate : string -> Doc -> Write
| WDelete : string -> Write.

Definition applyWrite (store : gmap string Doc) (w : Write) : gmap string Doc :=
  match w with
  | WSet path d => <[path := d]> store
  | WUpdate path d => <[path := d]> store
  | WDelete path => delete path store
  end.

(** ** [src/lib/screenplay/saveManager.ts] *)

Module SaveManager.
Import Text Regex.

Definition SCENE_SIZE_LIMIT : Z := 500 * 1024.
Definition LOCK_DURATION : Z := 5 * 60 * 1000.

(** The manager's fields, the store it talks to, and the log of the
    remote writes issued so far. *)
Record World : Type := mkWorld {
  store : gmap string Doc;
  writes : list Write;
  activeLocks : gset string;
  screenplayId : string;
}.

(** What a call reads from its surroundings: the fields that do not
    change, the two places of [window.location] that may carry a
    screenplay id, [Date.now()] and the id the store gives to the new
    history document. *)
Record Env : Type := mkEnv {
  userId : string;
  projectId : string;
  urlScreenplayId : option string;
  pathScreenplayId : option string;
  now : Z;
  autoId : string;
}.

Definition remoteWrite (w : World) (op : Write) : World :=
  {| store := applyWrite (store w) op;
     writes := writes w ++ [op];
     activeLocks := activeLocks w;
     screenplayId := screenplayId w |}.

(** [batch.commit()] *)
Definition commit (w : World) (batch : list Write) : World :=
  foldl remoteWrite w batch.

Definition lockPath (sceneId : string) : string := "scene_locks/" +:+ sceneId.

Definition scenesPath (env : Env) (effectiveScreenplayId : string) : string :=
  "projects/" +:+ projectId env +:+ "/screenplays/" +:+ effectiveScreenplayId
  +:+ "/scenes".

Definition acquireLock (env : Env) (w : World) (sceneId : string) : World * bool :=
  let lockRef := lockPath sceneId in
  let refused :=
    match store w !! lockRef with
    | Some (LockDoc lock) =>
        negb (lockUserId lock === userId env) && (now env <? expires lock)%Z
    | _ => false
    end in
  if refused then (w, false)
  else
    let w1 :=
      commit w [WSet lockRef (LockDoc {| lockSceneId := sceneId;
                                         lockUserId := userId env;
                                         acquired := now env;
                                         expires := now env + LOCK_DURATION |})] in
    ({| store := store w1; writes := writes w1;
        activeLocks := {[sceneId]} ∪ activeLocks w1;
        screenplayId := screenplayId w1 |}, true).

Definition releaseLock (w : World) (sceneId : string) : World :=
  let w1 :=
    {| store := store w; writes := writes w;
       activeLocks := activeLocks w ∖ {[sceneId]};
       screenplayId := screenplayId w |} in
  remoteWrite w1 (WDelete (lockPath sceneId)).

Definition isSentenceEnd (c : ascii) : bool :=
  Ascii.eqb c "." || Ascii.eqb c "!" || Ascii.eqb c "?".

(** [action.split(/(?<=[.!?])\s+/)]: the text after the point reached,
    as the rest of the current piece and the pieces after it.
    [afterEnd] says the previous character is one of [.!?]; [inGap] says
    the scan is inside a separator. *)
Fixpoint splitFrom (afterEnd inGap : bool) (s : string) : string * list string :=
  match s with
  | "" => ("", [])
  | String c s' =>
      if isWhiteSpace c && (inGap || afterEnd) then
        if inGap then splitFrom false true s'
        else let '(piece, more) := splitFrom false true s' in ("", piece :: more)
      else
        let '(piece, more) := splitFrom (isSentenceEnd c) false s' in
        (String c piece, more)
  end.

Definition splitSentences (action : string) : list string :=
  let '(piece, more) := splitFrom false false action in piece :: more.

(** The [for] loop of [splitActionIntoChunks]. *)
Fixpoint chunkLoop (chunks : list string) (currentChunk : string)
    (sentences : list string) : list string * string :=
  match sentences with
  | [] => (chunks, currentChunk)
  | sentence :: rest =>
      if (SCENE_SIZE_LIMIT <? len (currentChunk +:+ sentence))%Z
      then chunkLoop (chunks ++ [currentChunk]) sentence rest
      else chunkLoop chunks
             (currentChunk +:+ (if truthy currentChunk then " " else "") +:+ sentence)
             rest
  end.

Definition splitActionIntoChunks (action : string) : list string :=
  let '(chunks, currentChunk) := chunkLoop [] "" (splitSentences action) in
  if truthy currentChunk then chunks ++ [currentChunk] else chunks.

Definition getEffectiveScreenplayId (env : Env) (w : World) : string :=
  let effectiveScreenplayId :=
    orElse (default "" (urlScreenplayId env)) (screenplayId w) in
  if effectiveScreenplayId === "default-screenplay-id" then
    match pathScreenplayId env with
    | Some fromPath =>
        if truthy fromPath && negb (fromPath === "default-screenplay-id")
        then fromPath
        else if truthy (projectId env) then projectId env
        else effectiveScreenplayId
    | None =>
        if truthy (projectId env) then projectId env else effectiveScreenplayId
    end
  else effectiveScreenplayId.

Definition checkConflicts (env : Env) (w : World) (sceneId : string) : bool :=
  let sceneRef := scenesPath env (getEffectiveScreenplayId env w) +:+ "/" +:+ sceneId in
  match store w !! sceneRef with
  | Some (SceneDoc scene) =>
      negb (modifiedBy scene === userId env)
      && (now env - 5000 <? lastModified scene)%Z
  | _ => false
  end.

(** The dialogue loop of [saveScene]: [currentCharacter] and
    [currentParenthetical] are [null] or a string. *)
Fixpoint dialogueLoop (currentCharacter currentParenthetical : option string)
    (dialogueBlocks : list Block) : list Dialogue :=
  match dialogueBlocks with
  | [] => []
  | block :: rest =>
      if type block === "character" then
        dialogueLoop (Some (content block)) None rest
      else if type block === "parenthetical" then
        dialogueLoop currentCharacter (Some (content block)) rest
      else if (type block === "dialogue")
              && truthy (default "" currentCharacter) then
        {| characterName := default "" currentCharacter;
           text := content block;
           parenthetical :=
             if truthy (default "" currentParenthetical)
             then currentParenthetical else None |}
          :: dialogueLoop currentCharacter None rest
      else dialogueLoop currentCharacter currentParenthetical rest
  end.

Definition isType (t : string) (b : Block) : bool := type b === t.

Definition isSpeech (b : Block) : bool :=
  (type b === "character") || (type b === "dialogue")
  || (type b === "parenthetical").

(** [blocks.find(b => b.type === 'scene-heading')?.content || ''] *)
Definition sceneHeadingOf (blocks : list Block) : string :=
  match List.find (isType "scene-heading") blocks with
  | Some b => orElse (content b) ""
  | None => ""
  end.

(** The scene content record that [saveScene] writes. *)
Definition buildSceneContent (sceneId : string) (blocks : list Block)
  : SceneContent :=
  let actionBlocks := List.filter (isType "action") blocks in
  let dialogueBlocks := List.filter isSpeech blocks in
  let action := join newline (map content actionBlocks) in
  let actionSize := len action in
  let large := (SCENE_SIZE_LIMIT <? actionSize)%Z in
  {| contentId := "main";
     contentSceneId := sceneId;
     action := if large then None else Some action;
     actionChunks := if large then Some (splitActionIntoChunks action) else None;
     dialogues := dialogueLoop None None dialogueBlocks |}.

(** The scene record that [saveScene] writes. *)
Definition buildScene (env : Env) (effectiveScreenplayId sceneId : string)
    (blocks : list Block) : Scene :=
  {| sceneDocId := sceneId;
     screenplayIdOf := effectiveScreenplayId;
     sceneNumber := None;
     sceneHeading := sceneHeadingOf blocks;
     status := "Draft";
     lastModified := now env;
     modifiedBy := userId env |}.

Definition conflictResult (env : Env) (sceneId message : string) : SaveResult :=
  {| success := false;
     error := Some message;
     conflicts := Some [ {| conflictSceneId := sceneId;
                            userEmail := "another-user@example.com";
                            timestamp := now env |} ] |}.

(** The body of the [try] block of [saveScene]. *)
Definition saveSceneBody (env : Env) (w : World) (sceneId : string)
    (blocks : list Block) (ignoreConflicts : bool) : World * SaveResult :=
  let effectiveScreenplayId := getEffectiveScreenplayId env w in
  let w :=
    {| store := store w; writes := writes w; activeLocks := activeLocks w;
       screenplayId := effectiveScreenplayId |} in
  if negb ignoreConflicts && checkConflicts env w sceneId then
    (w, conflictResult env sceneId "Scene has been modified by another user")
  else
    let '(w, locked) := acquireLock env w sceneId in
    if negb locked then
      (w, conflictResult env sceneId "Scene is being edited by another user")
    else
      let sceneRef := scenesPath env effectiveScreenplayId +:+ "/" +:+ sceneId in
      let contentRef := sceneRef +:+ "/content/main" in
      let screenplayRef :=
        "projects/" +:+ projectId env +:+ "/screenplays/" +:+ effectiveScreenplayId in
      let changeRef := screenplayRef +:+ "/history/" +:+ autoId env in
      let setScene :=
        WSet sceneRef
          (SceneDoc (buildScene env effectiveScreenplayId sceneId blocks)) in
      let setContent := WSet contentRef (ContentDoc (buildSceneContent sceneId blocks)) in
      let screenplayWrite :=
        match store w !! screenplayRef with
        | Some (ScreenplayDoc meta) =>
            WUpdate screenplayRef
              (ScreenplayDoc {| metaId := metaId meta; ownerId := ownerId meta;
                                version := version meta + 1;
                                metaLastModified := now env |})
        | Some other => WUpdate screenplayRef other
        | None =>
            WSet screenplayRef
              (ScreenplayDoc {| metaId := effectiveScreenplayId;
                                ownerId := userId env;
                                version := now env;
                                metaLastModified := now env |})
        end in
      let setChange :=
        WSet changeRef (ChangeDoc {| changeTimestamp := now env;
                                     changeUserId := userId env;
                                     changeSceneId := sceneId;
                                     changeType := "UPDATE_SCENE" |}) in
      (commit w [setScene; setContent; screenplayWrite; setChange],
       {| success := true; error := None; conflicts := None |}).

(** [saveScene]: the [try] body, then the [finally] clause. *)
Definition saveScene (env : Env) (w : World) (sceneId : string)
    (blocks : list Block) (ignoreConflicts : bool) : World * SaveResult :=
  let '(w, result) := saveSceneBody env w sceneId blocks ignoreConflicts in
  (releaseLock w sceneId, result).

(** The remote writes a call adds to the log. *)
Definition writesOf (before after : World) : list Write :=
  drop (length (writes before)) (writes after).

End SaveManager.

(** ** [reconstructBlocksFromScenes] of the writing page

    The scenes query and the content reads are taken as done: the loop runs
    over the scene documents in query order, each with its document id and
    the content document found for it, if any.  Content written by
    [saveScene] has the fields of [SceneContent] only, so the branches that
    read other fields ([actionBlocks], the block ids of a dialogue) take
    their fallback. *)

Module Writing.
Import Text.


(** The three blocks, or two, that one dialogue record gives. *)
Definition dialogueBlocks (docId : string) (index : nat) (dialogue : Dialogue)
  : list Block :=
  [ newBlock (docId +:+ "-character-" +:+ pretty index) "character"
      (orElse (characterName dialogue) "CHARACTER") ]
  ++ (if truthy (default "" (parenthetical dialogue))
      then [ newBlock (docId +:+ "-parenthetical-" +:+ pretty index)
               "parenthetical" (default "" (parenthetical dialogue)) ]
      else [])
  ++ [ {| id := docId +:+ "-dialogue-" +:+ pretty index;
          type := "dialogue";
          content := orElse (text dialogue) "";
          number := Some (index + 1)%nat |} ].




End Writing.

(** ** The stated rules, written down directly

    Plain descriptions (no regular expressions, no loops over state) against
    which the embedded program is compared. *)

Module Rules.
Import Text Constants.

(** Number of blocks of type [t]. *)
Definition countType (t : string) (blocks : list Block) : nat :=
  length (List.filter (fun b => type b === t) blocks).


(** The table of base heights, with 2 for any other type. *)
Definition baseHeight (t : string) : Q :=
  if t === "scene-heading" then 2.5
  else if t === "action" then 2
  else if t === "character" then 2
  else if t === "parenthetical" then 1.8
  else if t === "dialogue" then 2
  else if t === "transition" then 2.5
  else if t === "text" then 2
  else if t === "shot" then 2.5
  else 2.

(** [ceil(n / 75)], at least one line. *)
Definition lineCount (n : Z) : Z := Z.max 1 ((n + 74) / 75).

(** [s] starts with [p], letter case aside. *)
Definition startsWithI (s p : string) : bool :=
  startsWith (toUpperCase s) (toUpperCase p).

(** Every character of [s] satisfies [f]. *)
Fixpoint allChars (f : ascii -> bool) (s : string) : bool :=
  match s with
  | "" => true
  | String c s' => f c && allChars f s'
  end.

(** [rest] starts with a white-space character, or with "." and then a
    white-space character. *)
Definition dotThenSpace (rest : string) : bool :=
  match rest with
  | String c rest' =>
      isWhiteSpace c
      || (Ascii.eqb c "."
          && match rest' with
             | String c' _ => isWhiteSpace c'
             | "" => false
             end)
  | "" => false
  end.

(** A scene-heading line: INT, EXT, INT/EXT or I/E in any letter case, an
    optional ".", then a white-space character. *)
Definition sceneHeadingRule (t : string) : bool :=
  existsb (fun p => startsWithI t p
                    && dotThenSpace (substringFrom (String.length p) t))
          ["INT"; "EXT"; "INT/EXT"; "I/E"].

(** A transition line: ends in "TO:" as written, or starts with FADE IN,
    FADE OUT or DISSOLVE in any letter case. *)
Definition transitionRule (t : string) : bool :=
  endsWith t "TO:"
  || existsb (startsWithI t) ["FADE IN"; "FADE OUT"; "DISSOLVE"].

(** A character line: an upper-case letter, then only upper-case letters,
    white space and the characters [.], [(] and [)]. *)
Definition nameChar (c : ascii) : bool :=
  isUpperLetter c || isWhiteSpace c
  || Ascii.eqb c "." || Ascii.eqb c "(" || Ascii.eqb c ")".

Definition characterRule (t : string) : bool :=
  match t with
  | String c rest => isUpperLetter c && allChars nameChar rest
  | "" => false
  end.

Definition parentheticalRule (t : string) : bool :=
  startsWith t "(" && endsWith t ")".

(** The classification by these four rules, in this order, on the trimmed
    text. *)
Definition classify (content : string) : option string :=
  let t := trim content in
  if sceneHeadingRule t then Some "scene-heading"
  else if transitionRule t then Some "transition"
  else if characterRule t then Some "character"
  else if parentheticalRule t then Some "parenthetical"
  else None.

(** The classification as first stated: a scene heading is any text that
    starts with INT, EXT, INT/EXT or I/E in any letter case, and a
    character line is any non-empty text of upper-case letters, spaces and
    punctuation. *)
Definition isPunctuation (c : ascii) : bool :=
  let n := nat_of_ascii c in
  ((33 <=? n) && (n <=? 47) || (58 <=? n) && (n <=? 64)
   || (91 <=? n) && (n <=? 96) || (123 <=? n) && (n <=? 126))%nat.

Definition classifyAsStated (content : string) : option string :=
  let t := trim content in
  if existsb (startsWithI t) ["INT"; "EXT"; "INT/EXT"; "I/E"]
  then Some "scene-heading"
  else if transitionRule t then Some "transition"
  else if truthy t
          && allChars (fun c => isUpperLetter c || isWhiteSpace c || isPunctuation c) t
  then Some "character"
  else if parentheticalRule t then Some "parenthetical"
  else None.

(** The text is one of the bare scene prefixes, letter case and outer
    white space aside. *)
Definition barePrefix (content : string) : bool :=
  existsb (fun p => toUpperCase (trim content) === p)
          ["INT."; "EXT."; "INT./EXT."; "EXT./INT."; "I/E."].

(** The table of successor types. *)
Definition successor (currentType : string) (isDoubleEnter : bool) : string :=
  if currentType === "action" then "character"
  else if currentType === "character" then "dialogue"
  else if currentType === "parenthetical" then "dialogue"
  else if currentType === "dialogue"
       then (if isDoubleEnter then "action" else "character")
  else if currentType === "transition" then "scene-heading"
  else "action".

(** [t] has a prefix in the language of [r]. *)
Definition prefixOf (r : Regex.regex) (t : string) : Prop :=
  exists s1 s2, t = s1 +:+ s2 /\ Regex.lang r s1.








(** Total length of the sentences of a chunk, joining spaces not counted. *)
Definition sumLen (sentences : list string) : Z :=
  foldr (fun s acc => (len s + acc)%Z) 0%Z sentences.










End Rules.

(** ** Concrete inputs used below *)

Module Samples.
Import Text SaveManager.


(** Alice saves scene [s1] at time 1000 while Bob holds its lease until
    time 2000. *)
Definition alice : Env :=
  {| userId := "alice"; projectId := "p1";
     urlScreenplayId := None; pathScreenplayId := None;
     now := 1000; autoId := "h1" |}.

Definition bobsLease : SceneLock :=
  {| lockSceneId := "s1"; lockUserId := "bob"; acquired := 0; expires := 2000 |}.

Definition leasedWorld : World :=
  {| store := {[ lockPath "s1" := LockDoc bobsLease ]};
     writes := [];
     activeLocks := ∅;
     screenplayId := "sp1" |}.

Definition sceneOne : list Block :=
  [ newBlock "1" "scene-heading" "INT. COFFEE SHOP - DAY";
    newBlock "2" "action" "A quiet morning scene." ].



(** A scene laid out as the records keep it. *)
Definition coffeeShop : list Block :=
  [ {| id := "1"; type := "scene-heading";
       content := "INT. COFFEE SHOP - DAY"; number := Some 1%nat |};
    newBlock "2" "action" "A quiet morning scene.";
    newBlock "3" "character" "SARAH";
    newBlock "4" "parenthetical" "(checking her phone)";
    {| id := "5"; type := "dialogue";
       content := "This can't be happening."; number := Some 1%nat |} ].

(** Editor states for the handlers. *)
Definition greeting : list Block := [ newBlock "1" "action" "hello" ].

Definition cutThenHeading : list Block :=
  [ newBlock "1" "transition" "CUT TO:"; newBlock "2" "scene-heading" "" ].

Definition speechThenAction : list Block :=
  [ newBlock "1" "dialogue" "Goodbye."; newBlock "2" "action" "He leaves." ].

Definition cutAsAction : list Block :=
  [ newBlock "1" "action" "CUT TO:"; newBlock "2" "action" "Rain." ].

Definition emptyLine : Handlers.Dom :=
  {| Handlers.textContent := ""; Handlers.caretPos := 0;
     Handlers.withinDoubleEnterDelay := false; Handlers.freshId := "99" |}.

Definition afterCutTo : Handlers.Dom :=
  {| Handlers.textContent := "CUT TO:"; Handlers.caretPos := 7;
     Handlers.withinDoubleEnterDelay := false; Handlers.freshId := "99" |}.

End Samples.

(** ** Further notions used to state properties of the code *)

Module Notions.
Import Text Constants.




(** A text made of white space only. *)
Definition blank (s : string) : bool := Rules.allChars isWhiteSpace s.

(** The six types that [getNextBlockType] can give. *)
Definition nextTypes : list string :=
  [ "scene-heading"; "action"; "character"; "dialogue";
    "parenthetical"; "transition" ].

(** [n] applications of [f]. *)
Fixpoint iterate {A : Type} (n : nat) (f : A -> A) (x : A) : A :=
  match n with
  | O => x
  | S n' => f (iterate n' f x)
  end.

(** Id, type and content of each block, in order. *)
Definition identity (blocks : list Block) : list (string * string * string) :=
  map (fun b => (id b, type b, content b)) blocks.

(** The characters of a text that are not white space, in order. *)
Fixpoint visible (s : string) : string :=
  match s with
  | "" => ""
  | String c s' => if isWhiteSpace c then visible s' else String c (visible s')
  end.

(** A text that starts with a white-space character. *)
Definition startsWithSpace (s : string) : bool :=
  match s with
  | "" => false
  | String c _ => isWhiteSpace c
  end.

(** A text whose last character is one of [.!?]. *)
Fixpoint endsSentence (s : string) : bool :=
  match s with
  | "" => false
  | String c "" => SaveManager.isSentenceEnd c
  | String _ s' => endsSentence s'
  end.

(** A text in which one of [.!?] is followed by white space: a place
    where [split(/(?<=[.!?])\s+/)] cuts. *)
Fixpoint hasBoundary (s : string) : bool :=
  match s with
  | "" => false
  | String c s' =>
      (SaveManager.isSentenceEnd c && startsWithSpace s') || hasBoundary s'
  end.

(** The document paths of [saveScene], for the screenplay id [sp]. *)
Definition screenplayRef (env : SaveManager.Env) (sp : string) : string :=
  "projects/" +:+ SaveManager.projectId env +:+ "/screenplays/" +:+ sp.

Definition sceneRef (env : SaveManager.Env) (sp sceneId : string) : string :=
  SaveManager.scenesPath env sp +:+ "/" +:+ sceneId.

Definition contentRef (env : SaveManager.Env) (sp sceneId : string) : string :=
  sceneRef env sp sceneId +:+ "/content/main".

Definition changeRef (env : SaveManager.Env) (sp : string) : string :=
  screenplayRef env sp +:+ "/history/" +:+ SaveManager.autoId env.

(** The manager after [saveScene] has taken the effective screenplay id
    as its own (lines 175 to 178). *)
Definition settled (env : SaveManager.Env) (w : SaveManager.World)
  : SaveManager.World :=
  {| SaveManager.store := SaveManager.store w;
     SaveManager.writes := SaveManager.writes w;
     SaveManager.activeLocks := SaveManager.activeLocks w;
     SaveManager.screenplayId := SaveManager.getEffectiveScreenplayId env w |}.


End Notions.

(** ** The renewal of a lease ([saveManager.ts], [renewLock] and the
    interval that [acquireLock] starts) *)

Module Lease.
Import SaveManager.



End Lease.

(** ** The undo history of the editor component ([ScreenplayEditor]) *)

Module History.

Record EditorState : Type := mkEditorState {
  blocks : list Block;
  undoStack : list (list Block);
  redoStack : list (list Block);
  selectedBlocks : gset string;
}.

(** [setBlocks(newBlocks)] *)
Definition setBlocks (st : EditorState) (newBlocks : list Block) : EditorState :=
  {| blocks := newBlocks; undoStack := undoStack st;
     redoStack := redoStack st; selectedBlocks := selectedBlocks st |}.

(** [addToHistory(newBlocks)]: the state pushed is the current one; the
    argument is not read. *)
Definition addToHistory (st : EditorState) (newBlocks : list Block) : EditorState :=
  {| blocks := blocks st;
     undoStack := undoStack st ++ [blocks st];
     redoStack := [];
     selectedBlocks := selectedBlocks st |}.

(** [prev.slice(0, -1)] *)
Definition dropLast {A : Type} (l : list A) : list A := take (length l - 1) l.

Definition handleUndo (st : EditorState) : EditorState :=
  if (0 <? length (undoStack st))%nat then
    match undoStack st !! (length (undoStack st) - 1)%nat with
    | Some previousState =>
        {| blocks := previousState;
           undoStack := dropLast (undoStack st);
           redoStack := redoStack st ++ [blocks st];
           selectedBlocks := ∅ |}
    | None => st
    end
  else st.

Definition handleRedo (st : EditorState) : EditorState :=
  if (0 <? length (redoStack st))%nat then
    match redoStack st !! (length (redoStack st) - 1)%nat with
    | Some nextState =>
        {| blocks := nextState;
           undoStack := undoStack st ++ [blocks st];
           redoStack := dropLast (redoStack st);
           selectedBlocks := ∅ |}
    | None => st
    end
  else st.

(** An edit as the handlers of the component make it: [addToHistory],
    then [setBlocks]. *)
Definition edit (st : EditorState) (newBlocks : list Block) : EditorState :=
  setBlocks (addToHistory st (blocks st)) newBlocks.

End History.

(** ** [src/hooks/useScreenplaySave.ts] *)

Module SaveHook.
Import Text.

(** [characters.add(name)] on a [Set], which keeps insertion order. *)
Definition setAdd (name : string) (characters : list string) : list string :=
  if bool_decide (name ∈ characters) then characters else characters ++ [name].

Definition extractCharacters (blocks : list Block) : list string :=
  foldl (fun characters block =>
           if type block === "character"
           then setAdd (trim (content block)) characters
           else characters)
        [] blocks.

(** [scenes.set(key, value)] on a [Map], which keeps the place of a key
    that is already there. *)
Fixpoint mapSet (key : nat) (value : list Block) (scenes : list (nat * list Block))
  : list (nat * list Block) :=
  match scenes with
  | [] => [(key, value)]
  | (k, v) :: rest =>
      if (k =? key)%nat then (key, value) :: rest
      else (k, v) :: mapSet key value rest
  end.

(** The [forEach] of [handleSave] that groups the blocks by scene. *)
Fixpoint groupLoop (scenes : list (nat * list Block)) (currentSceneNumber : nat)
    (currentSceneBlocks : list Block) (blocksToProcess : list Block)
  : list (nat * list Block) * nat * list Block :=
  match blocksToProcess with
  | [] => (scenes, currentSceneNumber, currentSceneBlocks)
  | block :: rest =>
      if type block === "scene-heading" then
        let scenes :=
          if (0 <? length currentSceneBlocks)%nat
          then mapSet currentSceneNumber currentSceneBlocks scenes
          else scenes in
        groupLoop scenes (default 0%nat (number block)) [block] rest
      else
        groupLoop scenes currentSceneNumber (currentSceneBlocks ++ [block]) rest
  end.

(** The map [scenes] of [handleSave], as its entries in iteration order. *)
Definition groupBlocksByScene (blocks : list Block) : list (nat * list Block) :=
  let '(scenes, currentSceneNumber, currentSceneBlocks) :=
    groupLoop [] 0%nat [] blocks in
  if (0 <? length currentSceneBlocks)%nat
  then mapSet currentSceneNumber currentSceneBlocks scenes
  else scenes.

End SaveHook.

(** * Properties *)

Import Text Regex Constants BlockUtils Handlers SaveManager Writing Rules Samples.

(** ** Strings *)

Section TextFacts.

Lemma eqb_true (a b : string) : (a === b) = true <-> a = b.
Proof. apply String.eqb_eq. Qed.

Lemma eqb_false (a b : string) : (a === b) = false <-> a <> b.
Proof. apply String.eqb_neq. Qed.

Lemma app_cons (c : ascii) (s t : string) : String c s +:+ t = String c (s +:+ t).
Proof. reflexivity. Qed.

Lemma app_empty_l (s : string) : "" +:+ s = s.
Proof. reflexivity. Qed.

Lemma app_empty_r (s : string) : s +:+ "" = s.
Proof. induction s as [|c s IH]; [done|]. by rewrite app_cons, IH. Qed.

Lemma app_assoc_s (s t u : string) : (s +:+ t) +:+ u = s +:+ (t +:+ u).
Proof. induction s as [|c s IH]; [done|]. by rewrite !app_cons, IH. Qed.



Lemma len_nonneg (s : string) : (0 <= len s)%Z.
Proof. unfold len. lia. Qed.

Lemma truthy_true (s : string) : truthy s = true <-> s <> "".
Proof. destruct s; simpl; split; intros; congruence. Qed.

Lemma truthy_false (s : string) : truthy s = false <-> s = "".
Proof. destruct s; simpl; split; intros; congruence. Qed.

Lemma app_eq_empty (s t : string) : s +:+ t = "" -> s = "" /\ t = "".
Proof. destruct s; [done|]. rewrite app_cons. discriminate. Qed.

End TextFacts.


(** ** The derivative matcher *)

Section Matcher.

Lemma nullable_lang (r : regex) : nullable r = true <-> lang r "".
Proof.
  split.
  - induction r as [| |p|r1 IH1 r2 IH2|r1 IH1 r2 IH2|r IH]; simpl; intros H;
      try discriminate.
    + constructor.
    + apply andb_true_iff in H as [H1 H2].
      apply (lang_seq r1 r2 "" ""); auto.
    + apply orb_true_iff in H as [H|H];
        [apply lang_alt_l | apply lang_alt_r]; auto.
    + constructor.
  - intros H. remember "" as s eqn:Hs.
    induction H as [|p c Hp|r1 r2 s1 s2 _ IH1 _ IH2|r1 r2 s _ IH|r1 r2 s _ IH
                   |r|r s1 s2 _ _ _ _]; simpl; try done.
    + apply app_eq_empty in Hs as [-> ->].
      by rewrite IH1, IH2.
    + by rewrite IH.
    + rewrite IH by done. apply orb_true_r.
Qed.

Lemma deriv_sound (c : ascii) (r : regex) (s : string) :
  lang (deriv c r) s -> lang r (String c s).
Proof.
  revert s.
  induction r as [| |p|r1 IH1 r2 IH2|r1 IH1 r2 IH2|r IH]; simpl; intros s H.
  - inversion H.
  - inversion H.
  - destruct (p c) eqn:Hp; inversion H; subst. by constructor.
  - destruct (nullable r1) eqn:Hn.
    + inversion H as [| | |? ? ? H1|? ? ? H2| |]; subst.
      * inversion H1 as [| |? ? s1 s2 Ha Hb| | | |]; subst.
        apply (lang_seq r1 r2 (String c s1) s2); auto.
      * apply (lang_seq r1 r2 "" (String c s)); auto.
        by apply nullable_lang.
    + inversion H as [| |? ? s1 s2 Ha Hb| | | |]; subst.
      apply (lang_seq r1 r2 (String c s1) s2); auto.
  - inversion H; subst; [apply lang_alt_l | apply lang_alt_r]; auto.
  - inversion H as [| |? ? s1 s2 Ha Hb| | | |]; subst.
    apply (lang_star_cons r (String c s1) s2); auto.
Qed.

Lemma deriv_complete (c : ascii) (r : regex) (w : string) :
  lang r w -> forall s, w = String c s -> lang (deriv c r) s.
Proof.
  induction 1 as [|p x Hp|r1 r2 s1 s2 H1 IH1 H2 IH2|r1 r2 w H IH|r1 r2 w H IH
                 |r|r s1 s2 H1 IH1 H2 IH2]; intros s Hw; simpl.
  - discriminate.
  - injection Hw as -> <-. rewrite Hp. constructor.
  - destruct s1 as [|x s1'].
    + rewrite app_empty_l in Hw.
      assert (nullable r1 = true) as -> by by apply nullable_lang.
      apply lang_alt_r. by apply IH2.
    + rewrite app_cons in Hw. injection Hw as -> <-.
      pose proof (lang_seq _ r2 _ _ (IH1 s1' eq_refl) H2) as Hseq.
      destruct (nullable r1); [by apply lang_alt_l | done].
  - apply lang_alt_l. by apply IH.
  - apply lang_alt_r. by apply IH.
  - discriminate.
  - destruct s1 as [|x s1'].
    + rewrite app_empty_l in Hw. by apply IH2.
    + rewrite app_cons in Hw. injection Hw as -> <-.
      apply (lang_seq _ _ _ _ (IH1 s1' eq_refl) H2).
Qed.

(** The matcher decides the language. *)
Lemma matches_lang (r : regex) (s : string) : matches r s = true <-> lang r s.
Proof.
  revert r. induction s as [|c s IH]; intros r; simpl.
  - apply nullable_lang.
  - rewrite IH. split.
    + apply deriv_sound.
    + intros H. by apply (deriv_complete c r (String c s)).
Qed.

Lemma lang_seq_iff r1 r2 s :
  lang (Seq r1 r2) s <-> exists s1 s2, s = s1 +:+ s2 /\ lang r1 s1 /\ lang r2 s2.
Proof.
  split.
  - inversion 1; subst. eauto.
  - intros (s1 & s2 & -> & H1 & H2). by constructor.
Qed.

Lemma lang_alt_iff r1 r2 s : lang (Alt r1 r2) s <-> lang r1 s \/ lang r2 s.
Proof.
  split.
  - inversion 1; subst; auto.
  - intros [H|H]; [by apply lang_alt_l | by apply lang_alt_r].
Qed.

Lemma lang_eps_iff s : lang Eps s <-> s = "".
Proof. split; [by inversion 1 | intros ->; constructor]. Qed.

Lemma lang_cls_iff p s : lang (Cls p) s <-> exists c, s = String c "" /\ p c = true.
Proof.
  split.
  - inversion 1; subst. eauto.
  - intros (c & -> & H). by constructor.
Qed.

Lemma lang_any_star s : lang (Star anyChar) s.
Proof.
  induction s as [|c s IH]; [constructor|].
  apply (lang_star_cons anyChar (String c "") s); [by constructor | done].
Qed.

Lemma lang_star_cls p s : lang (Star (Cls p)) s <-> allChars p s = true.
Proof.
  split.
  - intros H. remember (Star (Cls p)) as r eqn:Hr.
    induction H as [| | | | |r|r s1 s2 H1 _ H2 IH2]; try discriminate; [done|].
    injection Hr as ->. inversion H1; subst.
    rewrite app_cons, app_empty_l. simpl. rewrite IH2 by done.
    by rewrite andb_true_r.
  - induction s as [|c s IH]; simpl; intros H; [constructor|].
    apply andb_true_iff in H as [Hc Hs].
    apply (lang_star_cons (Cls p) (String c "") s); [by constructor | auto].
Qed.

End Matcher.

(** ** The patterns of [blockUtils.ts] *)

Section Patterns.

Lemma bool_eq_iff (a b : bool) : (a = true <-> b = true) -> a = b.
Proof.
  destruct a, b; intros [H1 H2]; auto. symmetry. by apply H1.
Qed.

Lemma startsWith_empty s : startsWith s "" = true.
Proof. by destruct s. Qed.

Lemma startsWith_cons x s c p :
  startsWith (String x s) (String c p) = Ascii.eqb x c && startsWith s p.
Proof.
  unfold startsWith. simpl.
  destruct (ascii_dec c x) as [->|Hne].
  - by rewrite Ascii.eqb_refl.
  - apply not_eq_sym in Hne. apply Ascii.eqb_neq in Hne. by rewrite Hne.
Qed.

Lemma startsWith_iff s p : startsWith s p = true <-> exists rest, s = p +:+ rest.
Proof.
  revert s. induction p as [|c p IH]; intros s.
  - rewrite startsWith_empty. split; [eauto | done].
  - destruct s as [|x s].
    + split; [done | intros [rest H]; discriminate].
    + rewrite startsWith_cons, andb_true_iff, Ascii.eqb_eq, IH. split.
      * intros [-> [rest ->]]. by exists rest.
      * intros [rest H]. rewrite app_cons in H. injection H as -> ->. eauto.
Qed.

Lemma endsWith_nil p : endsWith "" p = ("" === p).
Proof. simpl. apply orb_false_r. Qed.

Lemma endsWith_cons x s p :
  endsWith (String x s) p = (String x s === p) || endsWith s p.
Proof. reflexivity. Qed.

Lemma endsWith_iff s p : endsWith s p = true <-> exists before, s = before +:+ p.
Proof.
  induction s as [|x s IH].
  - rewrite endsWith_nil, eqb_true. split.
    + intros <-. by exists "".
    + intros [before H]. symmetry in H. by apply app_eq_empty in H as [_ ->].
  - rewrite endsWith_cons, orb_true_iff, eqb_true, IH. split.
    + intros [<-|[before ->]]; [by exists "" | by exists (String x before)].
    + intros [[|y before] H].
      * left. by rewrite app_empty_l in H.
      * right. rewrite app_cons in H. injection H as -> ->. eauto.
Qed.

Lemma startsWithI_empty s : startsWithI s "" = true.
Proof. unfold startsWithI. simpl. apply startsWith_empty. Qed.

Lemma startsWithI_cons x s c p :
  startsWithI (String x s) (String c p)
  = Ascii.eqb (upperChar x) (upperChar c) && startsWithI s p.
Proof. unfold startsWithI. simpl. apply startsWith_cons. Qed.

Lemma startsWithI_nil c p : startsWithI "" (String c p) = false.
Proof. done. Qed.

Lemma lang_lit_iff p s : lang (lit p) s <-> s = p.
Proof.
  revert s. induction p as [|c p IH]; intros s; simpl.
  - apply lang_eps_iff.
  - rewrite lang_seq_iff. split.
    + intros (s1 & s2 & -> & H1 & H2). apply lang_cls_iff in H1 as (x & -> & Hx).
      apply Ascii.eqb_eq in Hx as <-. apply IH in H2 as ->. done.
    + intros ->. exists (String c ""), p. repeat split.
      * apply lang_cls_iff. exists c. by rewrite Ascii.eqb_refl.
      * by apply IH.
Qed.

Lemma lang_litI_iff p s : lang (litI p) s <-> toUpperCase s = toUpperCase p.
Proof.
  revert s. induction p as [|c p IH]; intros s; simpl.
  - rewrite lang_eps_iff. by destruct s.
  - rewrite lang_seq_iff. split.
    + intros (s1 & s2 & -> & H1 & H2). apply lang_cls_iff in H1 as (x & -> & Hx).
      apply Ascii.eqb_eq in Hx. apply IH in H2.
      rewrite app_cons, app_empty_l. simpl. by rewrite Hx, H2.
    + destruct s as [|x s]; [done|]. simpl. intros H. injection H as Hx Hs.
      exists (String x ""), s. repeat split.
      * apply lang_cls_iff. exists x. split; [done|]. by apply Ascii.eqb_eq.
      * by apply IH.
Qed.

Lemma testStart_prefixOf r t : testStart r t = true <-> prefixOf r t.
Proof.
  unfold testStart, prefixOf. rewrite matches_lang, lang_seq_iff. split.
  - intros (s1 & s2 & -> & H1 & _). eauto.
  - intros (s1 & s2 & -> & H1). exists s1, s2. auto using lang_any_star.
Qed.

Lemma testEnd_iff r t :
  testEnd r t = true <-> exists s1 s2, t = s1 +:+ s2 /\ lang r s2.
Proof.
  unfold testEnd. rewrite matches_lang, lang_seq_iff. split.
  - intros (s1 & s2 & -> & _ & H2). eauto.
  - intros (s1 & s2 & -> & H2). exists s1, s2. auto using lang_any_star.
Qed.

Lemma prefixOf_alt a b t : prefixOf (Alt a b) t <-> prefixOf a t \/ prefixOf b t.
Proof.
  unfold prefixOf. split.
  - intros (s1 & s2 & -> & H). apply lang_alt_iff in H as [H|H]; eauto.
  - intros [(s1 & s2 & -> & H)|(s1 & s2 & -> & H)];
      exists s1, s2; split; try done; apply lang_alt_iff; auto.
Qed.

Lemma prefixOf_seq_alt a b r t :
  prefixOf (Seq (Alt a b) r) t <-> prefixOf (Seq a r) t \/ prefixOf (Seq b r) t.
Proof.
  unfold prefixOf. split.
  - intros (s1 & s2 & -> & H). apply lang_seq_iff in H as (u & v & -> & Hu & Hv).
    apply lang_alt_iff in Hu as [Hu|Hu]; [left|right];
      exists (u +:+ v), s2; split; try done; by constructor.
  - intros [(s1 & s2 & -> & H)|(s1 & s2 & -> & H)];
      apply lang_seq_iff in H as (u & v & -> & Hu & Hv);
      exists (u +:+ v), s2; split; try done; constructor; try done;
      apply lang_alt_iff; auto.
Qed.

Lemma prefixOf_eps t : prefixOf Eps t.
Proof. exists "", t. split; [done | constructor]. Qed.

Lemma prefixOf_cls p t :
  prefixOf (Cls p) t <-> exists c t', t = String c t' /\ p c = true.
Proof.
  unfold prefixOf. split.
  - intros (s1 & s2 & -> & H). apply lang_cls_iff in H as (c & -> & Hc). eauto.
  - intros (c & t' & -> & Hc). exists (String c ""), t'. split; [done|].
    by constructor.
Qed.

Lemma prefixOf_seq_cls p r t :
  prefixOf (Seq (Cls p) r) t
  <-> exists c t', t = String c t' /\ p c = true /\ prefixOf r t'.
Proof.
  unfold prefixOf. split.
  - intros (s1 & s2 & -> & H). apply lang_seq_iff in H as (u & v & -> & Hu & Hv).
    apply lang_cls_iff in Hu as (c & -> & Hc).
    exists c, (v +:+ s2). repeat split; [done|]. eauto.
  - intros (c & t' & -> & Hc & (s1 & s2 & -> & H)).
    exists (String c s1), s2. split; [done|].
    apply (lang_seq (Cls p) r (String c "") s1); [by constructor | done].
Qed.

Lemma prefixOf_seq_eps r t : prefixOf (Seq Eps r) t <-> prefixOf r t.
Proof.
  unfold prefixOf. split.
  - intros (s1 & s2 & -> & H). apply lang_seq_iff in H as (u & v & -> & Hu & Hv).
    apply lang_eps_iff in Hu as ->. eauto.
  - intros (s1 & s2 & -> & H). exists s1, s2. split; [done|].
    apply (lang_seq Eps r "" s1); [constructor | done].
Qed.

Lemma prefixOf_seq_assoc a b r t :
  prefixOf (Seq (Seq a b) r) t <-> prefixOf (Seq a (Seq b r)) t.
Proof.
  unfold prefixOf. split.
  - intros (s1 & s2 & -> & H). apply lang_seq_iff in H as (u & v & -> & Hu & Hv).
    apply lang_seq_iff in Hu as (u1 & u2 & -> & Hu1 & Hu2).
    exists (u1 +:+ (u2 +:+ v)), s2. split; [by rewrite !app_assoc_s|].
    constructor; [done|]. by constructor.
  - intros (s1 & s2 & -> & H). apply lang_seq_iff in H as (u & v & -> & Hu & Hv).
    apply lang_seq_iff in Hv as (v1 & v2 & -> & Hv1 & Hv2).
    exists ((u +:+ v1) +:+ v2), s2. split; [by rewrite !app_assoc_s|].
    constructor; [|done]. by constructor.
Qed.

(** A literal under the [i] flag, then [r]: the text starts with the
    literal, letter case aside, and [r] goes on from there. *)
Lemma prefixOf_seq_litI p r t :
  prefixOf (Seq (litI p) r) t
  <-> startsWithI t p = true /\ prefixOf r (substringFrom (String.length p) t).
Proof.
  revert t. induction p as [|c p IH]; intros t.
  - simpl. rewrite prefixOf_seq_eps, startsWithI_empty.
    destruct t; simpl; split; intros; tauto.
  - change (litI (String c p)) with (Seq (chrI c) (litI p)).
    rewrite prefixOf_seq_assoc. unfold chrI. rewrite prefixOf_seq_cls. split.
    + intros (x & t' & -> & Hx & H). apply IH in H as [H1 H2].
      rewrite startsWithI_cons, Hx, H1. done.
    + destruct t as [|x t']; [by rewrite startsWithI_nil; intros [? _]|].
      rewrite startsWithI_cons, andb_true_iff. intros [[Hx H1] H2].
      exists x, t'. repeat split; [done|]. apply IH. done.
Qed.

Lemma prefixOf_litI p t : prefixOf (litI p) t <-> startsWithI t p = true.
Proof.
  revert t. induction p as [|c p IH]; intros t.
  - rewrite startsWithI_empty. split; [done | intros _; apply prefixOf_eps].
  - change (litI (String c p)) with (Seq (chrI c) (litI p)).
    unfold chrI. rewrite prefixOf_seq_cls. split.
    + intros (x & t' & -> & Hx & H). apply IH in H.
      by rewrite startsWithI_cons, Hx, H.
    + destruct t as [|x t']; [by rewrite startsWithI_nil|].
      rewrite startsWithI_cons, andb_true_iff. intros [Hx H].
      exists x, t'. repeat split; [done|]. by apply IH.
Qed.

End Patterns.

Section Classification.

Lemma startsWithI_app t p q :
  startsWithI t (p +:+ q)
  = startsWithI t p && startsWithI (substringFrom (String.length p) t) q.
Proof.
  revert t. induction p as [|c p IH]; intros t.
  - rewrite app_empty_l, startsWithI_empty. by destruct t.
  - rewrite app_cons. destruct t as [|x t].
    + by rewrite !startsWithI_nil.
    + rewrite !startsWithI_cons, IH. simpl. by rewrite andb_assoc.
Qed.

Lemma dotThenSpace_iff rest :
  prefixOf (Seq (opt (chr ".")) space) rest <-> dotThenSpace rest = true.
Proof.
  unfold opt, chr, space.
  rewrite prefixOf_seq_alt, prefixOf_seq_cls, prefixOf_seq_eps, prefixOf_cls.
  unfold dotThenSpace. split.
  - intros [(c & t' & -> & Hc & H)|(c & t' & -> & Hc)].
    + apply prefixOf_cls in H as (c' & t'' & -> & Hc').
      apply Ascii.eqb_eq in Hc as <-. rewrite Hc'. simpl.
      by rewrite ?orb_true_r.
    + by rewrite Hc.
  - destruct rest as [|c rest']; [done|].
    rewrite orb_true_iff, andb_true_iff. intros [Hc|[Hc Hs]].
    + right. eauto.
    + left. exists c, rest'. repeat split.
      * apply Ascii.eqb_eq in Hc as ->. apply Ascii.eqb_refl.
      * destruct rest' as [|c' rest'']; [done|].
        apply prefixOf_cls. eauto.
Qed.

Lemma sceneHeadingPattern_rule t :
  testStart sceneHeadingPattern t = sceneHeadingRule t.
Proof.
  apply bool_eq_iff. rewrite testStart_prefixOf.
  unfold sceneHeadingPattern, sceneHeadingRule. cbn [alts existsb].
  rewrite !prefixOf_seq_alt, !prefixOf_seq_litI, !dotThenSpace_iff.
  rewrite orb_false_r, !orb_true_iff, !andb_true_iff. tauto.
Qed.

Lemma toColonPattern_rule t : testEnd toColonPattern t = endsWith t "TO:".
Proof.
  apply bool_eq_iff. rewrite testEnd_iff, endsWith_iff. unfold toColonPattern.
  split.
  - intros (s1 & s2 & -> & H). apply lang_lit_iff in H as ->. eauto.
  - intros (before & ->). exists before, "TO:". split; [done|].
    by apply lang_lit_iff.
Qed.

Lemma fadePatternI_rule t :
  testStart fadePatternI t
  = existsb (startsWithI t) ["FADE IN"; "FADE OUT"; "DISSOLVE"].
Proof.
  apply bool_eq_iff. rewrite testStart_prefixOf. unfold fadePatternI.
  rewrite prefixOf_alt, prefixOf_seq_litI, prefixOf_alt, !prefixOf_litI.
  cbn [existsb]. rewrite orb_false_r, !orb_true_iff.
  change "FADE IN" with ("FADE " +:+ "IN").
  change "FADE OUT" with ("FADE " +:+ "OUT").
  rewrite !startsWithI_app, !andb_true_iff. tauto.
Qed.

Lemma transition_rule t :
  testEnd toColonPattern t || testStart fadePatternI t = transitionRule t.
Proof. by rewrite toColonPattern_rule, fadePatternI_rule. Qed.

Lemma characterPattern_rule t :
  testWhole characterPattern t && (0 <? len t)%Z = characterRule t.
Proof.
  apply bool_eq_iff. rewrite andb_true_iff. unfold testWhole, characterPattern.
  rewrite matches_lang, lang_seq_iff. unfold characterRule. split.
  - intros [(s1 & s2 & -> & H1 & H2) _].
    apply lang_cls_iff in H1 as (c & -> & Hc).
    apply lang_star_cls in H2. rewrite app_cons, app_empty_l, Hc. exact H2.
  - destruct t as [|c rest]; [done|]. rewrite andb_true_iff. intros [Hc Hrest].
    split; [|done].
    exists (String c ""), rest. repeat split.
    + apply lang_cls_iff. eauto.
    + by apply lang_star_cls.
Qed.

Lemma scenePrefixPattern_rule content :
  testWhole scenePrefixPattern (trim content) = barePrefix content.
Proof.
  apply bool_eq_iff. unfold testWhole, scenePrefixPattern, barePrefix.
  cbn [alts existsb].
  rewrite matches_lang, !lang_alt_iff, !lang_litI_iff.
  rewrite orb_false_r, !orb_true_iff, !eqb_true. done.
Qed.

Lemma detectFormat_classify content : detectFormat content = classify content.
Proof.
  unfold detectFormat, classify.
  rewrite sceneHeadingPattern_rule, transition_rule, characterPattern_rule.
  done.
Qed.

End Classification.

(** C5, as stated, fails: the bare prefix "INT." starts with INT, so the
    stated rules make it a scene heading, but no white space follows the
    prefix and [detectFormat] goes on to classify it as a character line;
    and "O'BRIEN", made of upper-case letters and punctuation, is not
    classified at all. *)
Lemma detectFormat_bare_prefix_is_character :
  classifyAsStated "INT." = Some "scene-heading"
  /\ detectFormat "INT." = Some "character"
  /\ classifyAsStated "O'BRIEN" = Some "character"
  /\ detectFormat "O'BRIEN" = None.
Proof. repeat split; vm_compute; reflexivity. Qed.

(** C5, as it holds.  On the trimmed text, in this order: a scene
    heading if it starts, in any letter case, with INT, EXT, INT/EXT or
    I/E, then an optional ".", then a white-space character; else a
    transition if it ends in "TO:" as written or starts, in any letter
    case, with FADE IN, FADE OUT or DISSOLVE; else a character line if it
    is an upper-case letter followed only by upper-case letters, white
    space, ".", "(" and ")"; else a parenthetical if it starts with "(" and
    ends with ")"; else nothing.  The seven examples come out as stated. *)
Theorem detectFormat_rules (content : string) :
  detectFormat content = classify content
  /\ detectFormat "INT. HOUSE - DAY" = Some "scene-heading"
  /\ detectFormat "EXT HOUSE" = Some "scene-heading"
  /\ detectFormat "CUT TO:" = Some "transition"
  /\ detectFormat "FADE IN" = Some "transition"
  /\ detectFormat "SARAH" = Some "character"
  /\ detectFormat "(smiling)" = Some "parenthetical"
  /\ detectFormat "He walks in." = None.
Proof.
  split; [apply detectFormat_classify|].
  repeat split; vm_compute; reflexivity.
Qed.

(** C7. [getNextBlockType] keeps a scene heading when the text before the
    caret is a bare scene prefix (INT., EXT., INT./EXT., EXT./INT. or I/E.,
    letter case and outer white space aside) and follows a scene heading
    with action otherwise; for any other current type it gives the type
    that [detectFormat] finds in the text, and failing that the successor
    of the current type in the fixed table. *)
Theorem getNextBlockType_rules
    (currentType content : string) (isDoubleEnter : bool) :
  getNextBlockType currentType content isDoubleEnter
  = (if currentType === "scene-heading"
     then (if barePrefix content then "scene-heading" else "action")
     else match detectFormat content with
          | Some detected => detected
          | None => successor currentType isDoubleEnter
          end)
  /\ successor "action" isDoubleEnter = "character"
  /\ successor "character" isDoubleEnter = "dialogue"
  /\ successor "parenthetical" isDoubleEnter = "dialogue"
  /\ successor "dialogue" true = "action"
  /\ successor "dialogue" false = "character"
  /\ successor "transition" isDoubleEnter = "scene-heading"
  /\ getNextBlockType "scene-heading" "INT." false = "scene-heading"
  /\ getNextBlockType "scene-heading" "EXT./INT." false = "scene-heading"
  /\ getNextBlockType "scene-heading" "INT. HOUSE" false = "action".
Proof.
  split.
  - unfold getNextBlockType. rewrite scenePrefixPattern_rule.
    destruct (currentType === "scene-heading"); simpl.
    + by destruct (barePrefix content).
    + by destruct (detectFormat content).
  - repeat split; vm_compute; reflexivity.
Qed.

(** ** Numbering *)

Section Numbering.

Lemma numberBlocks_length sc dc blocks :
  length (numberBlocks sc dc blocks) = length blocks.
Proof.
  revert sc dc. induction blocks as [|b rest IH]; intros sc dc; simpl; [done|].
  destruct (type b === "scene-heading"); [|destruct (type b === "dialogue")];
    simpl; by rewrite IH.
Qed.

Lemma numberBlocks_frame sc dc blocks :
  map id (numberBlocks sc dc blocks) = map id blocks
  /\ map type (numberBlocks sc dc blocks) = map type blocks
  /\ map content (numberBlocks sc dc blocks) = map content blocks.
Proof.
  revert sc dc. induction blocks as [|b rest IH]; intros sc dc; simpl; [done|].
  destruct (type b === "scene-heading"); [|destruct (type b === "dialogue")];
    simpl; destruct (IH sc dc) as (H1 & H2 & H3);
    destruct (IH (S sc) dc) as (H4 & H5 & H6);
    destruct (IH sc (S dc)) as (H7 & H8 & H9);
    repeat split; congruence.
Qed.

Lemma countType_app t (l1 l2 : list Block) :
  countType t (l1 ++ l2) = (countType t l1 + countType t l2)%nat.
Proof. unfold countType. by rewrite List.filter_app, length_app. Qed.

Lemma countType_one t (b : Block) :
  countType t [b] = if type b === t then 1%nat else 0%nat.
Proof. unfold countType. simpl. by destruct (type b === t). Qed.


Lemma numberBlocks_again sc dc sc' dc' blocks :
  numberBlocks sc dc (numberBlocks sc' dc' blocks) = numberBlocks sc dc blocks.
Proof.
  revert sc dc sc' dc'.
  induction blocks as [|b rest IH]; intros sc dc sc' dc'; simpl; [done|].
  destruct (type b === "scene-heading") eqn:Hs; simpl.
  - rewrite Hs. simpl. by rewrite IH.
  - destruct (type b === "dialogue") eqn:Hd; simpl; rewrite Hs, Hd; simpl;
      by rewrite IH.
Qed.

End Numbering.


(** C10. [updateBlockNumbers] changes the [number] field only: the list
    keeps its length, and the block at each position keeps its id, type and
    content. *)
Theorem updateBlockNumbers_frame (blocks : list Block) :
  length (updateBlockNumbers blocks) = length blocks
  /\ map id (updateBlockNumbers blocks) = map id blocks
  /\ map type (updateBlockNumbers blocks) = map type blocks
  /\ map content (updateBlockNumbers blocks) = map content blocks.
Proof.
  split; [apply numberBlocks_length | apply numberBlocks_frame].
Qed.

(** ** Block heights *)

Section Heights.

Lemma Qceiling_div75 (n : Z) : Qceiling (inject_Z n / 75) = ((n + 74) / 75)%Z.
Proof.
  unfold Qceiling, Qfloor, Qdiv, Qmult, Qopp, Qinv, inject_Z. simpl.
  rewrite Z.mul_1_r. change (Z.pos (1 * 75)) with 75%Z.
  pose proof (Z.div_mod (- n) 75 ltac:(lia)) as H1.
  pose proof (Z.mod_pos_bound (- n) 75 ltac:(lia)) as H2.
  pose proof (Z.div_mod (n + 74) 75 ltac:(lia)) as H3.
  pose proof (Z.mod_pos_bound (n + 74) 75 ltac:(lia)) as H4.
  lia.
Qed.

Lemma contentLinesOf_lineCount (s : string) : contentLinesOf s = lineCount (len s).
Proof. unfold contentLinesOf, lineCount. by rewrite Qceiling_div75. Qed.

Lemma baseHeightOf_table (t : string) : baseHeightOf t = baseHeight t.
Proof.
  unfold baseHeightOf, baseHeight, BLOCK_HEIGHTS, property.
  rewrite !(String.eqb_sym _ t).
  repeat (match goal with |- context [t === ?k] => destruct (t === k) end;
          [reflexivity|]).
  reflexivity.
Qed.

End Heights.

(** C8. The height of a block is the base height of its type times the
    number of 75-character lines of its content, counted as
    [ceil(length / 75)] and at least one line; the base heights are 2.5 for
    scene headings, transitions and shots, 1.8 for parentheticals and 2 for
    action, character, dialogue and text blocks. *)
Theorem calculateBlockHeight_formula (block : Block) :
  calculateBlockHeight block
  = (baseHeight (type block) * inject_Z (lineCount (len (content block))))%Q
  /\ lineCount (len (content block))
     = Z.max 1 ((len (content block) + 74) / 75)
  /\ baseHeightOf "scene-heading" = 2.5%Q
  /\ baseHeightOf "action" = 2%Q
  /\ baseHeightOf "character" = 2%Q
  /\ baseHeightOf "parenthetical" = 1.8%Q
  /\ baseHeightOf "dialogue" = 2%Q
  /\ baseHeightOf "transition" = 2.5%Q
  /\ baseHeightOf "text" = 2%Q
  /\ baseHeightOf "shot" = 2.5%Q.
Proof.
  split.
  - unfold calculateBlockHeight.
    by rewrite baseHeightOf_table, contentLinesOf_lineCount.
  - repeat split; reflexivity.
Qed.

(** ** Pagination *)

Section Pagination.

















End Pagination.




(** The opening scene of the editor: after renumbering, the scene heading
    and the dialogue block both carry number 1, and the five blocks fit on
    one page. *)
Example coffeeShop_numbers_and_single_page :
  map number (updateBlockNumbers coffeeShop)
  = [Some 1%nat; None; None; None; Some 1%nat]
  /\ organizeBlocksIntoPages coffeeShop = [coffeeShop].
Proof. split; vm_compute; reflexivity. Qed.

(** ** Transitions and the scene heading after them *)

Section Transitions.

Lemma lookup_map {A B : Type} (f : A -> B) (l : list A) (i : nat) :
  map f l !! i = f <$> (l !! i).
Proof. revert i. induction l as [|x l IH]; intros [|i]; simpl; auto. Qed.

Lemma length_take_min {A : Type} (k : nat) (l : list A) :
  (k <= length l -> length (take k l) = k)%nat
  /\ (length l <= k -> length (take k l) = length l)%nat.
Proof.
  split; intros H.
  - by apply length_take_le.
  - by rewrite take_ge.
Qed.

Lemma spliceIn_lookup_before (k j : nat) (x : Block) (l : list Block) :
  (j < k)%nat -> (j < length l)%nat -> spliceIn k x l !! j = l !! j.
Proof.
  intros Hjk Hj. unfold spliceIn.
  destruct (length_take_min k l) as [Hle Hge].
  rewrite lookup_app_l by lia. by apply lookup_take_lt.
Qed.

Lemma spliceIn_lookup_at (k : nat) (x : Block) (l : list Block) :
  (k <= length l)%nat -> spliceIn k x l !! k = Some x.
Proof.
  intros Hk. unfold spliceIn.
  destruct (length_take_min k l) as [Hle _]. specialize (Hle Hk).
  rewrite lookup_app_r by lia.
  rewrite Hle. by replace (k - k)%nat with 0%nat by lia.
Qed.

Lemma findBlock_Some blocks blockId i current :
  findBlock blocks blockId = Some (i, current) ->
  blocks !! i = Some current /\ id current = blockId /\ (i < length blocks)%nat.
Proof.
  unfold findBlock. intros H. apply list_find_Some in H as (H1 & H2 & _).
  repeat split; [done..|]. by apply lookup_lt_Some in H1.
Qed.

Lemma handleEnterKey_transition blocks blockId dom i current :
  findBlock blocks blockId = Some (i, current) ->
  type current = "transition" ->
  exists t h,
    (handleEnterKey blocks blockId dom).1 !! i = Some t
    /\ type t = "transition"
    /\ (handleEnterKey blocks blockId dom).1 !! S i = Some h
    /\ type h = "scene-heading" /\ content h = ""
    /\ (handleEnterKey blocks blockId dom).2 = id h.
Proof.
  intros Hfind Htype. unfold handleEnterKey. rewrite Hfind.
  apply findBlock_Some in Hfind as (Hi & _ & Hlen).
  rewrite Htype. simpl.
  set (before := substringTo (caretPos dom) (textContent dom)).
  destruct (negb (trim before === "")); simpl.
  - exists (withContent current (toUpperCase (trim before))),
           (newBlock (freshId dom) "scene-heading" "").
    repeat split; try done.
    + rewrite spliceIn_lookup_before by (rewrite ?length_insert; lia).
      by apply list_lookup_insert_eq.
    + replace (i + 1)%nat with (S i) by lia.
      apply spliceIn_lookup_at. rewrite length_insert. lia.
  - exists current, (newBlock (freshId dom) "scene-heading" "").
    repeat split; try done.
    + by rewrite spliceIn_lookup_before by lia.
    + replace (i + 1)%nat with (S i) by lia.
      apply spliceIn_lookup_at. lia.
Qed.

Lemma createAndFocusSceneHeading_lookup fresh i (l : list Block) t :
  l !! i = Some t ->
  createAndFocusSceneHeading fresh i l !! i = Some t
  /\ createAndFocusSceneHeading fresh i l !! S i
     = Some (newBlock fresh "scene-heading" "").
Proof.
  intros Hi. pose proof (lookup_lt_Some _ _ _ Hi) as Hlen.
  unfold createAndFocusSceneHeading. split.
  - by rewrite spliceIn_lookup_before by lia.
  - replace (i + 1)%nat with (S i) by lia. apply spliceIn_lookup_at. lia.
Qed.

Lemma handleContentChange_new_transition
    blocks blockId newContent forcedType fresh i current t :
  findBlock blocks blockId = Some (i, current) ->
  type current <> "transition" ->
  trim newContent <> "" ->
  handleContentChange blocks blockId newContent forcedType fresh !! i = Some t ->
  type t = "transition" ->
  handleContentChange blocks blockId newContent forcedType fresh !! S i
  = Some (newBlock fresh "scene-heading" "").
Proof.
  intros Hfind Hwas Hcontent. unfold handleContentChange. rewrite Hfind.
  apply findBlock_Some in Hfind as (Hi & Hid & Hlen).
  apply eqb_false in Hcontent. rewrite Hcontent.
  apply eqb_false in Hwas.
  destruct (truthy (default "" forcedType)).
  - set (updated := map _ blocks).
    destruct (default "" forcedType === "transition") eqn:Hforced.
    + intros Ht _.
      assert (exists u, updated !! i = Some u) as [u Hu].
      { unfold updated. rewrite lookup_map, Hi. eauto. }
      by destruct (createAndFocusSceneHeading_lookup fresh i updated u Hu).
    + intros Ht Htype. exfalso. unfold updated in Ht.
      rewrite lookup_map, Hi in Ht. simpl in Ht. injection Ht as <-.
      apply eqb_true in Hid. rewrite Hid in Htype. simpl in Htype.
      rewrite Htype in Hforced. done.
  - unfold regularContentChange. set (updated := map _ blocks).
    destruct (updated !! i) as [u|] eqn:Hu.
    + rewrite Hwas. simpl. rewrite andb_true_r.
      destruct (type u === "transition") eqn:Hnow.
      * intros _ _.
        by destruct (createAndFocusSceneHeading_lookup fresh i updated u Hu).
      * intros Ht Htype. rewrite Hu in Ht. injection Ht as <-.
        apply eqb_false in Hnow. done.
    + intros Ht. by rewrite Hu in Ht.
Qed.

Lemma handleContentChange_retypes_transition
    blocks blockId newContent fresh i current :
  findBlock blocks blockId = Some (i, current) ->
  type current <> "transition" ->
  type current <> "parenthetical" ->
  trim newContent <> "" ->
  isTransitionContent newContent = true ->
  handleContentChange blocks blockId newContent None fresh !! i
  = Some (withContent (withType current "transition") (toUpperCase (trim newContent))).
Proof.
  intros Hfind Hwas Hparen Hcontent Hpattern.
  unfold handleContentChange. rewrite Hfind.
  apply findBlock_Some in Hfind as (Hi & Hid & Hlen).
  apply eqb_false in Hcontent. rewrite Hcontent. simpl.
  unfold regularContentChange.
  assert (Hu : map (retype blockId newContent) blocks !! i
               = Some (withContent (withType current "transition")
                                   (toUpperCase (trim newContent)))).
  { rewrite lookup_map, Hi. simpl. f_equal. unfold retype.
    apply eqb_true in Hid. rewrite Hid. simpl.
    apply eqb_false in Hparen. rewrite Hparen.
    apply eqb_false in Hwas. rewrite Hwas, Hpattern. done. }
  rewrite Hu. simpl. apply eqb_false in Hwas. rewrite Hwas. simpl.
  by destruct (createAndFocusSceneHeading_lookup fresh i _ _ Hu).
Qed.

End Transitions.


(** C2, as stated, fails.  From block lists in which every transition is
    followed by a scene heading: a format change to transition, and Tab
    from a dialogue block, leave a transition with no scene heading after
    it; Backspace on the empty scene heading after a transition, and a
    content change that empties it, remove the scene heading; Enter at the
    end of an action block that reads CUT TO: inserts a transition block
    before an action block. *)
Lemma handlers_leave_transition_without_scene_heading :
  (transitionsFollowed greeting = true
   /\ transitionsFollowed (handleFormatChange greeting (Some "1") "transition")
      = false)
  /\ (transitionsFollowed speechThenAction = true
      /\ transitionsFollowed
           (handleKeyDown speechThenAction (Some "1") Tab "1" emptyLine)
         = false)
  /\ (transitionsFollowed cutThenHeading = true
      /\ transitionsFollowed
           (handleKeyDown cutThenHeading (Some "2") Backspace "2" emptyLine)
         = false
      /\ transitionsFollowed
           (handleContentChange cutThenHeading "2" " " None "99")
         = false)
  /\ (transitionsFollowed cutAsAction = true
      /\ transitionsFollowed
           (handleKeyDown cutAsAction (Some "1") Enter "1" afterCutTo)
         = false).
Proof. repeat split; vm_compute; reflexivity. Qed.

(** C2, as it holds.  For the block found under the given id, at position
    [i]: Enter inside a transition block leaves a transition block at [i]
    and a new empty scene heading right after it, which gets the focus; a
    content change that leaves a transition at [i] where the block was not
    one before puts a new empty scene heading right after it; and a content
    change whose text matches the transition pattern does turn a block that
    is neither a transition nor a parenthetical into a transition with the
    text trimmed and in upper case. *)
Theorem new_transition_gets_scene_heading
    blocks blockId dom newContent forcedType fresh i current :
  findBlock blocks blockId = Some (i, current) ->
  (type current = "transition" ->
   exists t h,
     (handleEnterKey blocks blockId dom).1 !! i = Some t
     /\ type t = "transition"
     /\ (handleEnterKey blocks blockId dom).1 !! S i = Some h
     /\ type h = "scene-heading" /\ content h = ""
     /\ (handleEnterKey blocks blockId dom).2 = id h)
  /\ (type current <> "transition" -> trim newContent <> "" ->
      forall t,
        handleContentChange blocks blockId newContent forcedType fresh !! i = Some t ->
        type t = "transition" ->
        handleContentChange blocks blockId newContent forcedType fresh !! S i
        = Some (newBlock fresh "scene-heading" ""))
  /\ (type current <> "transition" -> type current <> "parenthetical" ->
      trim newContent <> "" -> isTransitionContent newContent = true ->
      handleContentChange blocks blockId newContent None fresh !! i
      = Some (withContent (withType current "transition")
                          (toUpperCase (trim newContent)))).
Proof.
  intros Hfind. repeat split.
  - intros Htype.
    by apply (handleEnterKey_transition blocks blockId dom i current).
  - intros Hwas Hcontent t.
    by apply (handleContentChange_new_transition
                blocks blockId newContent forcedType fresh i current).
  - intros Hwas Hparen Hcontent Hpattern.
    by apply handleContentChange_retypes_transition.
Qed.

(** The same on an action block that reads CUT TO: and is retyped by the
    text "cut to:". *)
Lemma new_transition_gets_scene_heading_witness :
  findBlock cutAsAction "1" = Some (0%nat, newBlock "1" "action" "CUT TO:")
  /\ handleContentChange cutAsAction "1" "cut to:" None "99" !! 0%nat
     = Some (newBlock "1" "transition" "CUT TO:")
  /\ handleContentChange cutAsAction "1" "cut to:" None "99" !! 1%nat
     = Some (newBlock "99" "scene-heading" "").
Proof.
  assert (Hfind : findBlock cutAsAction "1"
                  = Some (0%nat, newBlock "1" "action" "CUT TO:"))
    by reflexivity.
  destruct (new_transition_gets_scene_heading
              cutAsAction "1" afterCutTo "cut to:" None "99" 0%nat
              (newBlock "1" "action" "CUT TO:") Hfind) as (_ & Hnew & Hretype).
  assert (Hat : handleContentChange cutAsAction "1" "cut to:" None "99" !! 0%nat
                = Some (newBlock "1" "transition" "CUT TO:")).
  { apply Hretype; [discriminate | discriminate | discriminate | reflexivity]. }
  split; [exact Hfind|]. split; [exact Hat|].
  apply (Hnew ltac:(discriminate) ltac:(discriminate) _ Hat). reflexivity.
Defined.

(** ** Saving a scene under a foreign lease *)

Section ForeignLease.

Lemma writesOf_remoteWrite (w0 w : World) (op : Write) :
  writes w = writes w0 -> writesOf w0 (remoteWrite w op) = [op].
Proof.
  intros H. unfold writesOf, remoteWrite. simpl. rewrite H.
  by rewrite drop_app_length.
Qed.

(** Whatever the scene and the flag, a save against a lease that another
    user holds and that has not expired fails with a conflict entry for the
    scene, and the only remote write of the call is the deletion of that
    lease by the [finally] clause. *)
Lemma saveScene_foreign_lease env w sceneId blocks ignoreConflicts lock :
  store w !! lockPath sceneId = Some (LockDoc lock) ->
  lockUserId lock <> userId env ->
  (now env < expires lock)%Z ->
  success (saveScene env w sceneId blocks ignoreConflicts).2 = false
  /\ (exists message,
        (saveScene env w sceneId blocks ignoreConflicts).2
        = conflictResult env sceneId message)
  /\ writesOf w (saveScene env w sceneId blocks ignoreConflicts).1
     = [WDelete (lockPath sceneId)]
  /\ store (saveScene env w sceneId blocks ignoreConflicts).1 !! lockPath sceneId
     = None.
Proof.
  intros Hlock Hother Hlive.
  unfold saveScene, saveSceneBody.
  destruct (negb ignoreConflicts && checkConflicts env _ sceneId).
  - simpl. repeat split; eauto.
    + by apply writesOf_remoteWrite.
    + apply lookup_delete_eq.
  - unfold acquireLock. simpl. rewrite Hlock.
    apply eqb_false in Hother. rewrite Hother.
    apply Z.ltb_lt in Hlive. rewrite Hlive. simpl.
    repeat split; eauto.
    + by apply writesOf_remoteWrite.
    + apply lookup_delete_eq.
Qed.

End ForeignLease.

(** C1, evaluated.  Alice saves scene [s1] while Bob's lease on it is still
    running: the save fails with a conflict entry for [s1], and the call
    issues one remote write, the deletion of Bob's lease. *)
Theorem saveScene_foreign_lease_deletes_the_lease :
  (saveScene alice leasedWorld "s1" sceneOne false).2
  = {| success := false;
       error := Some "Scene is being edited by another user";
       conflicts := Some [ {| conflictSceneId := "s1";
                              userEmail := "another-user@example.com";
                              timestamp := 1000 |} ] |}
  /\ writesOf leasedWorld (saveScene alice leasedWorld "s1" sceneOne false).1
     = [WDelete "scene_locks/s1"]
  /\ store leasedWorld !! "scene_locks/s1" = Some (LockDoc bobsLease)
  /\ store (saveScene alice leasedWorld "s1" sceneOne false).1 !! "scene_locks/s1"
     = None.
Proof. repeat split; vm_compute; reflexivity. Qed.

(** ** Chunks of a long action text *)

Section Chunks.

Lemma join_single sep (s : string) : join sep [s] = s.
Proof. done. Qed.

Lemma join_cons2 sep (x y : string) (rest : list string) :
  join sep (x :: y :: rest) = x +:+ sep +:+ join sep (y :: rest).
Proof. done. Qed.



Lemma sumLen_nonneg (l : list string) : (0 <= sumLen l)%Z.
Proof.
  induction l as [|x l IH]; unfold sumLen in *; simpl; [done|].
  pose proof (len_nonneg x). lia.
Qed.










End Chunks.




(** ** From a scene to its records and back *)

Section RoundTrip.






Lemma isSpeech_false_of_type (b : Block) (t : string) :
  type b = t ->
  ((t === "character") || (t === "dialogue") || (t === "parenthetical")) = false ->
  isSpeech b = false.
Proof. intros <-. done. Qed.






End RoundTrip.




(** * Further properties *)

Import Notions Lease SaveHook.

(** ** More on heights, pages, classification and numbering *)

Section PageHeights.






End PageHeights.


Section HeightBounds.

Lemma baseHeight_bounds (t : string) : (1.8 <= baseHeight t <= 2.5)%Q.
Proof.
  unfold baseHeight.
  repeat (match goal with |- context [t === ?k] => destruct (t === k) end;
          [split; unfold Qle; simpl; lia|]).
  split; unfold Qle; simpl; lia.
Qed.

Lemma lineCount_mono (n m : Z) : (n <= m)%Z -> (lineCount n <= lineCount m)%Z.
Proof.
  intros H. unfold lineCount.
  assert ((n + 74) / 75 <= (m + 74) / 75)%Z by (apply Z.div_le_mono; lia).
  lia.
Qed.

Lemma lineCount_pos (n : Z) : (1 <= lineCount n)%Z.
Proof. unfold lineCount. lia. Qed.

End HeightBounds.

(** X2. No block is lower than 1.8 line units, the height of a one-line
    parenthetical, and for blocks of one type a longer content never gives
    a lower block. *)
Theorem calculateBlockHeight_bounds (b1 b2 : Block) :
  type b1 = type b2 ->
  (len (content b1) <= len (content b2))%Z ->
  (1.8 <= calculateBlockHeight b1)%Q
  /\ (calculateBlockHeight b1 <= calculateBlockHeight b2)%Q.
Proof.
  intros Htype Hlen. unfold calculateBlockHeight.
  rewrite !baseHeightOf_table, !contentLinesOf_lineCount, <- Htype.
  pose proof (baseHeight_bounds (type b1)) as [Hlo Hhi].
  pose proof (lineCount_pos (len (content b1))) as Hpos.
  pose proof (lineCount_mono _ _ Hlen) as Hmono.
  assert (H1 : (1 <= inject_Z (lineCount (len (content b1))))%Q)
    by (change 1%Q with (inject_Z 1); by rewrite <- Zle_Qle).
  assert (H2 : (inject_Z (lineCount (len (content b1)))
                <= inject_Z (lineCount (len (content b2))))%Q)
    by by rewrite <- Zle_Qle.
  split; nra.
Qed.

(** A one-word name and a speech of two lines. *)
Lemma calculateBlockHeight_bounds_witness :
  (1.8 <= calculateBlockHeight (newBlock "1" "dialogue" "Hi"))%Q
  /\ (calculateBlockHeight (newBlock "1" "dialogue" "Hi")
      <= calculateBlockHeight (newBlock "2" "dialogue" (Text.repeat "a" 76)))%Q.
Proof.
  apply calculateBlockHeight_bounds; [reflexivity | vm_compute; discriminate].
Defined.

Section ForcedBreaks.





End ForcedBreaks.


Section Trimming.

Lemma trimStart_blank_app (pre s : string) :
  blank pre = true -> trimStart (pre +:+ s) = trimStart s.
Proof.
  induction pre as [|c pre IH]; [done|]. unfold blank. simpl.
  intros H. apply andb_true_iff in H as [Hc Hpre].
  rewrite ?app_cons. simpl. rewrite Hc. by apply IH.
Qed.

Lemma trimEnd_blank (post : string) : blank post = true -> trimEnd post = "".
Proof.
  induction post as [|c post IH]; [done|]. unfold blank. simpl.
  intros H. apply andb_true_iff in H as [Hc Hpost].
  rewrite (IH Hpost), Hc. done.
Qed.

Lemma trimEnd_app_blank (s post : string) :
  blank post = true -> trimEnd (s +:+ post) = trimEnd s.
Proof.
  intros Hpost. induction s as [|c s IH].
  - rewrite app_empty_l. by apply trimEnd_blank.
  - rewrite ?app_cons. simpl. by rewrite IH.
Qed.

Lemma trimEnd_idempotent (s : string) : trimEnd (trimEnd s) = trimEnd s.
Proof.
  induction s as [|c s IH]; [done|]. simpl.
  destruct (isWhiteSpace c && negb (truthy (trimEnd s))) eqn:E; [done|].
  simpl. by rewrite IH, E.
Qed.

Lemma trimStart_trimEnd_trimStart (s : string) :
  trimStart (trimEnd (trimStart s)) = trimEnd (trimStart s).
Proof.
  induction s as [|c s IH]; [done|]. simpl.
  destruct (isWhiteSpace c) eqn:Hc; [done|].
  simpl. rewrite Hc. simpl. by rewrite Hc.
Qed.

Lemma trim_idempotent (s : string) : trim (trim s) = trim s.
Proof.
  unfold trim. by rewrite trimStart_trimEnd_trimStart, trimEnd_idempotent.
Qed.

Lemma trim_surrounded (pre s post : string) :
  blank pre = true -> blank post = true -> trim (pre +:+ s +:+ post) = trim s.
Proof.
  intros Hpre Hpost. unfold trim.
  rewrite (trimStart_blank_app pre _ Hpre).
  (* the leading white space of [s] may reach into [post] *)
  induction s as [|c s IH].
  - rewrite app_empty_l. simpl.
    clear Hpre. induction post as [|x post IHp]; [done|].
    unfold blank in Hpost. simpl in Hpost.
    apply andb_true_iff in Hpost as [Hx Hrest]. simpl. rewrite Hx. by apply IHp.
  - rewrite ?app_cons. simpl. destruct (isWhiteSpace c); [done|].
    rewrite <- app_cons. by apply trimEnd_app_blank.
Qed.

Lemma detectFormat_trim (s : string) : detectFormat (trim s) = detectFormat s.
Proof. unfold detectFormat. by rewrite trim_idempotent. Qed.

End Trimming.

(** X4. White space around a text never changes its classification by
    [detectFormat], and a text of white space only is not classified. *)
Theorem detectFormat_ignores_surrounding_space (pre s post : string) :
  blank pre = true -> blank post = true ->
  detectFormat (pre +:+ s +:+ post) = detectFormat s
  /\ detectFormat pre = None.
Proof.
  intros Hpre Hpost. split.
  - unfold detectFormat. by rewrite trim_surrounded.
  - unfold detectFormat.
    assert (trim pre = "") as ->; [|done].
    unfold trim. rewrite <- (app_empty_r pre), (trimStart_blank_app pre "" Hpre).
    done.
Qed.

(** A scene heading typed with a tab before it and spaces after it. *)
Lemma detectFormat_ignores_surrounding_space_witness :
  detectFormat (String "009"%char " " +:+ "INT. HOUSE - DAY" +:+ "  ")
  = detectFormat "INT. HOUSE - DAY"
  /\ detectFormat (String "009"%char " ") = None.
Proof.
  apply detectFormat_ignores_surrounding_space; reflexivity.
Defined.

Section NextTypes.

Lemma detectFormat_types (s : string) :
  detectFormat s = None
  \/ detectFormat s = Some "scene-heading" \/ detectFormat s = Some "transition"
  \/ detectFormat s = Some "character" \/ detectFormat s = Some "parenthetical".
Proof.
  unfold detectFormat.
  repeat match goal with |- context [if ?c then _ else _] => destruct c end;
    auto.
Qed.

End NextTypes.

(** X5. [getNextBlockType] only ever gives scene-heading, action,
    character, dialogue, parenthetical or transition, whatever the current
    type and text (it never gives text or shot, nor a type of its own
    making), and a type it gives is one of [BLOCK_TYPES]. *)
Theorem getNextBlockType_range
    (currentType content : string) (isDoubleEnter : bool) :
  In (getNextBlockType currentType content isDoubleEnter) nextTypes
  /\ In (getNextBlockType currentType content isDoubleEnter) BLOCK_TYPES
  /\ getNextBlockType currentType content isDoubleEnter <> "text"
  /\ getNextBlockType currentType content isDoubleEnter <> "shot".
Proof.
  assert (H : In (getNextBlockType currentType content isDoubleEnter) nextTypes).
  { unfold getNextBlockType.
    destruct ((currentType === "scene-heading") && _); [simpl; auto|].
    destruct (currentType === "scene-heading"); [simpl; auto|].
    destruct (detectFormat_types content) as [->|[->|[->|[->| ->]]]];
      try (simpl; tauto).
    repeat match goal with |- context [if ?c then _ else _] => destruct c end;
      simpl; tauto. }
  split; [exact H|].
  unfold nextTypes in H. simpl in H.
  repeat split.
  - simpl. intuition.
  - intros E. rewrite E in H. intuition discriminate.
  - intros E. rewrite E in H. intuition discriminate.
Qed.

Section NumberingPrefix.

Lemma numberBlocks_app sc dc (l1 l2 : list Block) :
  numberBlocks sc dc (l1 ++ l2)
  = numberBlocks sc dc l1
    ++ numberBlocks (sc + countType "scene-heading" l1)
                    (dc + countType "dialogue" l1) l2.
Proof.
  revert sc dc. induction l1 as [|b l1 IH]; intros sc dc.
  - simpl. unfold countType. simpl. by rewrite !Nat.add_0_r.
  - change ((b :: l1) ++ l2) with (b :: (l1 ++ l2)).
    change (b :: l1) with ([b] ++ l1) at 2 3.
    rewrite !countType_app, !countType_one. simpl numberBlocks.
    destruct (type b === "scene-heading") eqn:Hs.
    + apply eqb_true in Hs. rewrite Hs. simpl.
      rewrite IH. do 3 f_equal; lia.
    + destruct (type b === "dialogue") eqn:Hd; simpl; rewrite IH;
        do 3 f_equal; lia.
Qed.

End NumberingPrefix.

(** X6. Numbering is stable under what follows: the numbers of the blocks
    of a document do not depend on the blocks after them, and the blocks
    appended are numbered on from the counts reached. *)
Theorem updateBlockNumbers_app (l1 l2 : list Block) :
  updateBlockNumbers (l1 ++ l2)
  = updateBlockNumbers l1
    ++ numberBlocks (countType "scene-heading" l1) (countType "dialogue" l1) l2
  /\ take (length l1) (updateBlockNumbers (l1 ++ l2)) = updateBlockNumbers l1.
Proof.
  assert (H : updateBlockNumbers (l1 ++ l2)
              = updateBlockNumbers l1
                ++ numberBlocks (countType "scene-heading" l1)
                                (countType "dialogue" l1) l2)
    by apply (numberBlocks_app 0 0).
  split; [exact H|].
  rewrite H.
  rewrite <- (numberBlocks_length 0 0 l1) at 1.
  apply take_app_length.
Qed.

(** ** More on the editing handlers *)

Section EnterKey.

Lemma substring_split (k : nat) (s : string) :
  substringTo k s +:+ substringFrom k s = s.
Proof.
  revert s. induction k as [|k IH]; intros [|c s]; simpl; try done.
  by rewrite app_cons, IH.
Qed.

Lemma spliceIn_after_insert (i : nat) (x y : Block) (l : list Block) :
  (i < length l)%nat ->
  spliceIn (i + 1) y (<[i := x]> l) = take i l ++ x :: y :: drop (S i) l.
Proof.
  intros Hi. unfold spliceIn. replace (i + 1)%nat with (S i) by lia.
  rewrite (take_S_r _ i x) by by apply list_lookup_insert_eq.
  rewrite take_insert_ge by lia. rewrite drop_insert_lt by lia.
  by rewrite <- app_assoc.
Qed.

Lemma removeId_Forall (blockId : string) (l : list Block) :
  Forall (fun b => id b <> blockId) (removeId blockId l).
Proof.
  unfold removeId. apply Forall_forall. intros b Hb.
  by apply list_elem_of_filter in Hb as [Hb _].
Qed.

End EnterKey.

(** X7. Enter in a block that is neither a transition nor a parenthetical,
    when it is not a double Enter, splits the block at the caret: the block
    keeps its id and type with the text before the caret, a new block with
    the text after the caret and the type given by [getNextBlockType]
    follows it and gets the focus, no other block changes, and the two
    texts together are the text of the element. *)
Theorem handleEnterKey_splits blocks blockId dom i current :
  findBlock blocks blockId = Some (i, current) ->
  type current <> "transition" ->
  type current <> "parenthetical" ->
  (withinDoubleEnterDelay dom = false \/ type current <> "dialogue"
   \/ trim (substringTo (caretPos dom) (textContent dom)) <> "") ->
  handleEnterKey blocks blockId dom
  = (take i blocks
     ++ withContent current (substringTo (caretPos dom) (textContent dom))
     :: newBlock (freshId dom)
          (getNextBlockType (type current)
             (substringTo (caretPos dom) (textContent dom)) false)
          (substringFrom (caretPos dom) (textContent dom))
     :: drop (S i) blocks,
     freshId dom)
  /\ substringTo (caretPos dom) (textContent dom)
     +:+ substringFrom (caretPos dom) (textContent dom)
     = textContent dom.
Proof.
  intros Hfind Htrans Hparen Hslow. split; [|apply substring_split].
  unfold handleEnterKey. rewrite Hfind.
  apply findBlock_Some in Hfind as (Hi & _ & Hlen).
  apply eqb_false in Htrans. apply eqb_false in Hparen.
  rewrite Htrans, Hparen.
  assert (withinDoubleEnterDelay dom && (type current === "dialogue")
          && (trim (substringTo (caretPos dom) (textContent dom)) === "")
          = false) as ->.
  { destruct Hslow as [->|[H|H]]; [done|..]; apply eqb_false in H; rewrite H.
    - apply andb_false_iff. left. apply andb_false_r.
    - apply andb_false_r. }
  by rewrite spliceIn_after_insert.
Qed.

(** Enter after the first sentence of an action line. *)
Lemma handleEnterKey_splits_witness :
  handleEnterKey cutAsAction "2"
    {| textContent := "Rain. Wind."; caretPos := 5;
       withinDoubleEnterDelay := false; freshId := "99" |}
  = ([ newBlock "1" "action" "CUT TO:"; newBlock "2" "action" "Rain.";
       newBlock "99" "character" " Wind." ], "99")
  /\ "Rain." +:+ " Wind." = "Rain. Wind.".
Proof.
  apply (handleEnterKey_splits cutAsAction "2"
           {| textContent := "Rain. Wind."; caretPos := 5;
              withinDoubleEnterDelay := false; freshId := "99" |}
           1%nat (newBlock "2" "action" "Rain."));
    [reflexivity | discriminate | discriminate | left; reflexivity].
Defined.

(** X8. A double Enter (a second Enter within 500 ms, in a dialogue block,
    with nothing but white space before the caret) removes every block
    that has the id of the dialogue block and puts the new action block,
    holding the text after the caret, at the end of the document, wherever
    the dialogue block was. *)
Theorem handleEnterKey_double_enter blocks blockId dom i current :
  findBlock blocks blockId = Some (i, current) ->
  type current = "dialogue" ->
  withinDoubleEnterDelay dom = true ->
  trim (substringTo (caretPos dom) (textContent dom)) = "" ->
  handleEnterKey blocks blockId dom
  = (removeId blockId blocks
     ++ [newBlock (freshId dom) "action"
           (substringFrom (caretPos dom) (textContent dom))],
     freshId dom)
  /\ Forall (fun b => id b <> blockId) (removeId blockId blocks)
  /\ last (handleEnterKey blocks blockId dom).1
     = Some (newBlock (freshId dom) "action"
               (substringFrom (caretPos dom) (textContent dom)))
  /\ (length (handleEnterKey blocks blockId dom).1 <= length blocks)%nat.
Proof.
  intros Hfind Htype Hquick Hblank.
  assert (Heq : handleEnterKey blocks blockId dom
                = (removeId blockId blocks
                   ++ [newBlock (freshId dom) "action"
                         (substringFrom (caretPos dom) (textContent dom))],
                   freshId dom)).
  { unfold handleEnterKey. rewrite Hfind, Htype, Hquick, Hblank. done. }
  rewrite Heq. repeat split.
  - apply removeId_Forall.
  - apply last_snoc.
  - simpl. rewrite length_app. simpl.
    apply findBlock_Some in Hfind as (Hi & Hid & Hlen).
    assert (length (removeId blockId blocks) < length blocks)%nat; [|lia].
    unfold removeId.
    rewrite <- (take_drop_middle blocks i current Hi).
    rewrite filter_app, filter_cons_False by (intros H; by apply H).
    rewrite !length_app. simpl.
    pose proof (length_filter (fun b => id b <> blockId) (take i blocks)).
    pose proof (length_filter (fun b => id b <> blockId) (drop (S i) blocks)).
    lia.
Qed.

(** A second quick Enter on the empty dialogue line in the middle of three
    blocks. *)
Lemma handleEnterKey_double_enter_witness :
  handleEnterKey
    [ newBlock "1" "character" "BOB"; newBlock "2" "dialogue" "";
      newBlock "3" "action" "Rain." ] "2"
    {| textContent := ""; caretPos := 0;
       withinDoubleEnterDelay := true; freshId := "99" |}
  = ([ newBlock "1" "character" "BOB"; newBlock "3" "action" "Rain.";
       newBlock "99" "action" "" ], "99").
Proof.
  apply (handleEnterKey_double_enter
           [ newBlock "1" "character" "BOB"; newBlock "2" "dialogue" "";
             newBlock "3" "action" "Rain." ] "2"
           {| textContent := ""; caretPos := 0;
              withinDoubleEnterDelay := true; freshId := "99" |}
           1%nat (newBlock "2" "dialogue" ""));
    reflexivity.
Defined.

Section FormatChange.

Lemma identity_numberBlocks sc dc (l : list Block) :
  identity (numberBlocks sc dc l) = identity l.
Proof.
  revert sc dc. induction l as [|b l IH]; intros sc dc; [done|]. simpl.
  destruct (type b === "scene-heading"); [|destruct (type b === "dialogue")];
    unfold identity in *; simpl; by rewrite IH.
Qed.

Lemma upperChar_not_lower (c : ascii) : isLowerLetter (upperChar c) = false.
Proof.
  destruct c as [[] [] [] [] [] [] [] []]; reflexivity.
Qed.

Lemma toUpperCase_no_lower (s : string) :
  allChars (fun c => negb (isLowerLetter c)) (toUpperCase s) = true.
Proof.
  induction s as [|c s IH]; [done|]. simpl.
  by rewrite upperChar_not_lower, IH.
Qed.

Lemma endsWith_snoc (s : string) (c : ascii) :
  endsWith (s +:+ String c "") (String c "") = true.
Proof. apply endsWith_iff. by exists s. Qed.

Lemma trimEnd_ends (s : string) (c : ascii) :
  isWhiteSpace c = false ->
  trimEnd (s +:+ String c "") = s +:+ String c "".
Proof.
  intros Hc. induction s as [|x s IH].
  - rewrite app_empty_l. simpl. by rewrite Hc.
  - rewrite app_cons. simpl. rewrite IH.
    destruct s; rewrite ?app_empty_l, ?app_cons; simpl; by rewrite ?andb_false_r.
Qed.

Lemma trim_wrapped (s : string) :
  trim ("(" +:+ s +:+ ")") = "(" +:+ s +:+ ")".
Proof.
  unfold trim. rewrite app_cons, app_empty_l. simpl.
  by rewrite (trimEnd_ends s ")").
Qed.

Lemma wrapped_rule (s : string) : parentheticalRule ("(" +:+ s +:+ ")") = true.
Proof.
  unfold parentheticalRule. apply andb_true_iff. split.
  - apply startsWith_iff. by exists (s +:+ ")").
  - apply endsWith_iff. exists ("(" +:+ s). by rewrite app_assoc_s.
Qed.

Lemma formatContent_parenthetical (b : Block) :
  parentheticalRule (trim (formatContent b "parenthetical")) = true.
Proof.
  unfold formatContent. simpl.
  set (t := trim (content b)).
  destruct ((t === "") || (t === "()")) eqn:Hempty.
  - done.
  - destruct (negb (startsWith t "(") || negb (endsWith t ")")) eqn:Hbare.
    + rewrite trim_wrapped. apply wrapped_rule.
    + apply orb_false_iff in Hbare as [H1 H2].
      apply negb_false_iff in H1. apply negb_false_iff in H2.
      unfold parentheticalRule. fold t. by rewrite H1, H2.
Qed.

Lemma formatContent_character (b : Block) :
  type b <> "character" ->
  formatContent b "character"
  = toUpperCase (if type b === "parenthetical"
                 then trim (stripParens (content b)) else content b).
Proof.
  intros H. apply eqb_false in H. unfold formatContent. simpl. rewrite H.
  simpl. by destruct (type b === "parenthetical").
Qed.

End FormatChange.

(** X9. A format change keeps the length of the list and the id of every
    block; when the active block is found, exactly the blocks with its id
    get the new type and the transformed content of the active block, every
    other block keeps type and content, and the list handed on is numbered
    (numbering it again changes nothing).  Without an active block, or with
    an id that no block has, nothing changes. *)
Theorem handleFormatChange_frame blocks (active ty : string) :
  handleFormatChange blocks None ty = blocks
  /\ (findBlock blocks active = None ->
      handleFormatChange blocks (Some active) ty = blocks)
  /\ length (handleFormatChange blocks (Some active) ty) = length blocks
  /\ map id (handleFormatChange blocks (Some active) ty) = map id blocks
  /\ (forall i current,
        findBlock blocks active = Some (i, current) ->
        identity (handleFormatChange blocks (Some active) ty)
        = map (fun b => if id b === active
                        then (id b, ty, formatContent current ty)
                        else (id b, type b, content b)) blocks
        /\ updateBlockNumbers (handleFormatChange blocks (Some active) ty)
           = handleFormatChange blocks (Some active) ty).
Proof.
  split; [done|]. split; [by intros H; unfold handleFormatChange; rewrite H|].
  unfold handleFormatChange.
  destruct (findBlock blocks active) as [[i current]|] eqn:Hfind;
    [|split; [done|split; [done|intros; discriminate]]].
  split; [|split].
  - unfold updateBlockNumbers. by rewrite numberBlocks_length, length_map.
  - unfold updateBlockNumbers.
    destruct (numberBlocks_frame 0 0
                (map (fun block => if id block === active
                                   then withContent (withType block ty)
                                          (formatContent current ty)
                                   else block) blocks)) as [Hids _].
    rewrite Hids, map_map. apply map_ext. intros b.
    by destruct (id b === active).
  - intros i' current' Hsame. injection Hsame as <- <-. split.
    + unfold updateBlockNumbers. rewrite identity_numberBlocks.
      unfold identity. rewrite map_map. apply map_ext. intros b.
      by destruct (id b === active).
    + apply numberBlocks_again.
Qed.

(** X10. A format change to parenthetical leaves a text that, trimmed,
    starts with "(" and ends with ")"; a format change to character on a
    block of another type leaves a text without lower-case letters. *)
Theorem formatContent_wraps_and_uppercases (b : Block) :
  parentheticalRule (trim (formatContent b "parenthetical")) = true
  /\ (type b <> "character" ->
      allChars (fun c => negb (isLowerLetter c)) (formatContent b "character")
      = true).
Proof.
  split; [apply formatContent_parenthetical|].
  intros H. rewrite (formatContent_character b H). apply toUpperCase_no_lower.
Qed.

Section ContentChange.

Lemma startsWith_app_l (s p t : string) :
  startsWith s p = true -> startsWith (s +:+ t) p = true.
Proof.
  intros H. apply startsWith_iff in H as [rest ->]. apply startsWith_iff.
  exists (rest +:+ t). by rewrite app_assoc_s.
Qed.

(** The text that a content change leaves in a parenthetical block. *)
Lemma retype_parenthetical blockId newContent (b : Block) :
  id b = blockId -> type b = "parenthetical" ->
  type (retype blockId newContent b) = "parenthetical"
  /\ id (retype blockId newContent b) = id b
  /\ startsWith (content (retype blockId newContent b)) "(" = true
  /\ endsWith (content (retype blockId newContent b)) ")" = true.
Proof.
  intros Hid Htype. unfold retype.
  apply eqb_true in Hid. rewrite Hid. simpl. rewrite Htype. simpl.
  split; [done|]. split; [done|].
  set (t := trim newContent).
  assert (Hopen : startsWith (if negb (startsWith t "(") then "(" +:+ t else t) "("
                  = true).
  { destruct (startsWith t "(") eqn:E; simpl; [done|].
    apply startsWith_iff. by exists t. }
  set (u := if negb (startsWith t "(") then "(" +:+ t else t) in *.
  destruct (endsWith u ")") eqn:E; simpl.
  - done.
  - split; [by apply startsWith_app_l | apply (endsWith_snoc u ")")].
Qed.

End ContentChange.

(** X11. A content change without forced type on a parenthetical block, to
    a text that is not blank, never retypes the block and inserts nothing:
    the block stays a parenthetical, whatever the text looks like, and its
    content starts with "(" and ends with ")". *)
Theorem handleContentChange_parenthetical blocks blockId newContent fresh i current :
  findBlock blocks blockId = Some (i, current) ->
  type current = "parenthetical" ->
  trim newContent <> "" ->
  length (handleContentChange blocks blockId newContent None fresh)
  = length blocks
  /\ exists b,
       handleContentChange blocks blockId newContent None fresh !! i = Some b
       /\ id b = blockId /\ type b = "parenthetical"
       /\ startsWith (content b) "(" = true
       /\ endsWith (content b) ")" = true.
Proof.
  intros Hfind Htype Hcontent. unfold handleContentChange. rewrite Hfind.
  apply findBlock_Some in Hfind as (Hi & Hid & Hlen).
  apply eqb_false in Hcontent. rewrite Hcontent. simpl.
  unfold regularContentChange.
  destruct (retype_parenthetical blockId newContent current Hid Htype)
    as (H1 & H2 & H3 & H4).
  assert (Hu : map (retype blockId newContent) blocks !! i
               = Some (retype blockId newContent current))
    by by rewrite lookup_map, Hi.
  rewrite Hu, Htype. simpl. rewrite H1. simpl.
  split; [by rewrite length_map|].
  exists (retype blockId newContent current). repeat split; try done.
  by rewrite H2.
Qed.

(** Typing "cut to:" into a parenthetical. *)
Lemma handleContentChange_parenthetical_witness :
  handleContentChange
    [ newBlock "1" "character" "BOB"; newBlock "2" "parenthetical" "()" ]
    "2" "cut to:" None "99"
  = [ newBlock "1" "character" "BOB"; newBlock "2" "parenthetical" "(cut to:)" ]
  /\ length (handleContentChange
               [ newBlock "1" "character" "BOB"; newBlock "2" "parenthetical" "()" ]
               "2" "cut to:" None "99") = 2%nat.
Proof.
  split; [reflexivity|].
  apply (handleContentChange_parenthetical
           [ newBlock "1" "character" "BOB"; newBlock "2" "parenthetical" "()" ]
           "2" "cut to:" "99" 1%nat (newBlock "2" "parenthetical" "()"));
    [reflexivity | reflexivity | discriminate].
Defined.


(** ** Tab, Backspace and Enter *)

Section Keys.

Lemma filter_keep_all (blockId : string) (l : list Block) :
  Forall (fun b => id b <> blockId) l -> removeId blockId l = l.
Proof.
  unfold removeId. induction 1 as [|b l Hb _ IH]; [done|].
  rewrite filter_cons. destruct (decide (id b ≠ blockId)); [by rewrite IH|done].
Qed.

Lemma removeId_app (blockId : string) (l1 l2 : list Block) :
  removeId blockId (l1 ++ l2) = removeId blockId l1 ++ removeId blockId l2.
Proof. unfold removeId. apply filter_app. Qed.

Lemma removeId_hit (blockId : string) (b : Block) (l : list Block) :
  id b = blockId -> removeId blockId (b :: l) = removeId blockId l.
Proof.
  intros H. unfold removeId. rewrite filter_cons.
  by destruct (decide (id b ≠ blockId)).
Qed.

Lemma removeId_sublist (blockId : string) (l : list Block) :
  removeId blockId l `sublist_of` l.
Proof. apply sublist_filter. Qed.

(** What the filter of Backspace leaves when the first block with the id
    is at index [i]. *)
Lemma removeId_first blocks blockId i current :
  findBlock blocks blockId = Some (i, current) ->
  removeId blockId blocks
  = take i blocks ++ removeId blockId (drop (S i) blocks).
Proof.
  unfold findBlock. intros H. apply list_find_Some in H as (Hi & Hid & Hbefore).
  rewrite <- (take_drop_middle blocks i current Hi) at 1.
  rewrite removeId_app, (removeId_hit _ _ _ Hid). f_equal.
  apply filter_keep_all, Forall_forall. intros b Hb.
  apply list_elem_of_lookup in Hb as [j Hj].
  pose proof (lookup_lt_Some _ _ _ Hj) as Hlt. rewrite length_take in Hlt.
  rewrite lookup_take_lt in Hj by lia.
  apply (Hbefore j b Hj). lia.
Qed.

Lemma nextTypeOf_cases (t : string) :
  In t BLOCK_TYPES \/ nextTypeOf t = "scene-heading".
Proof.
  unfold nextTypeOf, BLOCK_TYPES. cbn [indexOf].
  repeat match goal with
         | |- context [ ?x === t ] =>
             let E := fresh "E" in
             destruct (x === t) eqn:E;
             [apply eqb_true in E; subst t; left; simpl; tauto|]
         end.
  by right.
Qed.

Lemma findBlock_same_ids (l1 l2 : list Block) blockId i current :
  map id l1 = map id l2 ->
  findBlock l1 blockId = Some (i, current) ->
  exists current', findBlock l2 blockId = Some (i, current').
Proof.
  intros Hids H. unfold findBlock in *.
  apply list_find_Some in H as (Hi & Hid & Hbefore).
  assert (Hi2 : exists c, l2 !! i = Some c /\ id c = blockId).
  { assert (E : map id l2 !! i = Some blockId)
      by (rewrite <- Hids, list_lookup_fmap, Hi; simpl; by rewrite Hid).
    rewrite list_lookup_fmap in E.
    destruct (l2 !! i) as [c|]; [|done]. exists c. split; [done|].
    simpl in E. congruence. }
  destruct Hi2 as (c & Hc & Hidc). exists c.
  apply list_find_Some. split; [done|]. split; [done|].
  intros j y Hj Hlt Hy.
  assert (E : map id l1 !! j = Some blockId)
    by (rewrite Hids, list_lookup_fmap, Hj; simpl; by rewrite Hy).
  rewrite list_lookup_fmap in E.
  destruct (l1 !! j) as [x|] eqn:Hx; [|done]. simpl in E.
  apply (Hbefore j x Hx Hlt). congruence.
Qed.

(** The block that a format change leaves at the place of the active one. *)
Lemma handleFormatChange_at blocks active ty i current :
  findBlock blocks active = Some (i, current) ->
  map id (handleFormatChange blocks (Some active) ty) = map id blocks
  /\ exists b,
       handleFormatChange blocks (Some active) ty !! i = Some b
       /\ id b = active /\ type b = ty.
Proof.
  intros Hfind. unfold handleFormatChange. rewrite Hfind.
  apply findBlock_Some in Hfind as (Hi & Hid & Hlen).
  set (f := fun block : Block =>
              if id block === active
              then withContent (withType block ty) (formatContent current ty)
              else block).
  unfold updateBlockNumbers.
  destruct (numberBlocks_frame 0 0 (map f blocks)) as (Hids & Htypes & _).
  split.
  - rewrite Hids, map_map. apply map_ext. intros b. unfold f.
    by destruct (id b === active).
  - assert (Hf : map f blocks !! i = Some (f current))
      by by rewrite lookup_map, Hi.
    assert (Hfid : id (f current) = active /\ type (f current) = ty).
    { unfold f. by rewrite Hid, String.eqb_refl. }
    destruct Hfid as [Hfid Hfty].
    assert (E1 : map id (numberBlocks 0 0 (map f blocks)) !! i = Some active)
      by (rewrite Hids, list_lookup_fmap, Hf; simpl; by rewrite Hfid).
    assert (E2 : map type (numberBlocks 0 0 (map f blocks)) !! i = Some ty)
      by (rewrite Htypes, list_lookup_fmap, Hf; simpl; by rewrite Hfty).
    rewrite list_lookup_fmap in E1, E2.
    destruct (numberBlocks 0 0 (map f blocks) !! i) as [b|]; [|done].
    exists b. simpl in E1, E2. split; [done|]. split; congruence.
Qed.

End Keys.

(** X12. Backspace in an emptied block whose id first occurs after the
    first place removes every block with that id, not only the one the
    caret is in: the blocks up to the one before it stay as they are, and
    of the blocks after it those with another id stay, in order. *)
Theorem handleKeyDown_backspace_removes blocks activeBlock blockId dom i current :
  textContent dom = "" ->
  findBlock blocks blockId = Some (S i, current) ->
  handleKeyDown blocks activeBlock Backspace blockId dom
  = take (S i) blocks ++ removeId blockId (drop (S (S i)) blocks)
  /\ Forall (fun b => id b <> blockId)
            (handleKeyDown blocks activeBlock Backspace blockId dom)
  /\ (length (handleKeyDown blocks activeBlock Backspace blockId dom)
      < length blocks)%nat.
Proof.
  intros Hempty Hfind. unfold handleKeyDown. rewrite Hempty, Hfind. simpl.
  split; [by apply removeId_first with current|].
  split; [apply removeId_Forall|].
  rewrite (removeId_first _ _ _ _ Hfind).
  apply findBlock_Some in Hfind as (_ & _ & Hlen).
  pose proof (sublist_length _ _
                (removeId_sublist blockId (drop (S (S i)) blocks))) as Hle.
  rewrite length_app, length_take. rewrite length_drop in Hle. lia.
Qed.

(** Backspace in the emptied second line of a speech. *)
Lemma handleKeyDown_backspace_removes_witness :
  handleKeyDown
    [ newBlock "1" "character" "BOB"; newBlock "2" "dialogue" "";
      newBlock "3" "action" "He leaves."; newBlock "2" "dialogue" "Again." ]
    (Some "2") Backspace "2" (mkDom "" 0 false "9")
  = [ newBlock "1" "character" "BOB"; newBlock "3" "action" "He leaves." ]
  /\ Forall (fun b => id b <> "2")
       (handleKeyDown
          [ newBlock "1" "character" "BOB"; newBlock "2" "dialogue" "";
            newBlock "3" "action" "He leaves."; newBlock "2" "dialogue" "Again." ]
          (Some "2") Backspace "2" (mkDom "" 0 false "9")).
Proof.
  split; [reflexivity|].
  apply (handleKeyDown_backspace_removes
           [ newBlock "1" "character" "BOB"; newBlock "2" "dialogue" "";
             newBlock "3" "action" "He leaves."; newBlock "2" "dialogue" "Again." ]
           (Some "2") "2" (mkDom "" 0 false "9") 0%nat
           (newBlock "2" "dialogue" "")); reflexivity.
Defined.

(** X13. Backspace never removes the first block and never adds or
    reorders blocks: the result is a sublist of the list with the same
    first block; and it changes nothing at all when the element still has
    text, when no block has the id, or when the first block with the id is
    the first block of the list. *)
Theorem handleKeyDown_backspace_keeps_first blocks activeBlock blockId dom :
  head (handleKeyDown blocks activeBlock Backspace blockId dom) = head blocks
  /\ handleKeyDown blocks activeBlock Backspace blockId dom `sublist_of` blocks
  /\ (textContent dom <> ""
      \/ findBlock blocks blockId = None
      \/ (exists current, findBlock blocks blockId = Some (0%nat, current)) ->
      handleKeyDown blocks activeBlock Backspace blockId dom = blocks).
Proof.
  unfold handleKeyDown.
  destruct (textContent dom === "") eqn:E.
  - destruct (findBlock blocks blockId) as [[[|i] current]|] eqn:Hfind.
    + done.
    + split; [|split; [apply removeId_sublist|]].
      * rewrite (removeId_first _ _ _ _ Hfind).
        apply findBlock_Some in Hfind as (_ & _ & Hlen).
        destruct blocks as [|b rest]; [simpl in Hlen; lia|done].
      * intros [H|[H|[c H]]]; [|done..].
        apply eqb_true in E. done.
    + done.
  - done.
Qed.

(** X14. The type that Tab moves to is always one of the eight block
    types; from a type that is none of them Tab moves to scene-heading;
    and on the eight types Tab is a cycle of length eight: eight steps lead
    back, fewer do not. *)
Theorem nextTypeOf_cycle (t : string) :
  In (nextTypeOf t) BLOCK_TYPES
  /\ (~ In t BLOCK_TYPES -> nextTypeOf t = "scene-heading")
  /\ (In t BLOCK_TYPES ->
      iterate 8 nextTypeOf t = t
      /\ forall n, (0 < n < 8)%nat -> iterate n nextTypeOf t <> t).
Proof.
  split; [|split].
  - destruct (nextTypeOf_cases t) as [H| ->]; [|simpl; tauto].
    simpl in H. repeat (destruct H as [<-|H]; [vm_compute; tauto|]). done.
  - intros H. by destruct (nextTypeOf_cases t).
  - intros H. simpl in H.
    repeat (destruct H as [<-|H];
            [split; [reflexivity|];
             intros n Hn;
             do 8 (destruct n as [|n]; [try lia; vm_compute; discriminate|]);
             lia|]).
    done.
Qed.

(** X15. Tab pressed [n] times in the active block moves its type [n]
    steps along the cycle of block types, keeps the block in its place and
    keeps the ids of all blocks. *)
Theorem handleKeyDown_tab_iterate blocks blockId dom i current (n : nat) :
  findBlock blocks blockId = Some (i, current) ->
  map id (iterate n (fun bs => handleKeyDown bs (Some blockId) Tab blockId dom)
                  blocks)
  = map id blocks
  /\ exists b,
       findBlock (iterate n (fun bs => handleKeyDown bs (Some blockId) Tab
                                         blockId dom) blocks) blockId
       = Some (i, b)
       /\ type b = iterate n nextTypeOf (type current).
Proof.
  intros Hfind. induction n as [|n (Hids & b & Hb & Hty)]; cbn [iterate].
  - split; [done|]. by exists current.
  - set (prev := iterate n _ blocks) in *.
    unfold handleKeyDown. rewrite Hb.
    destruct (handleFormatChange_at _ blockId (nextTypeOf (type b)) i b Hb)
      as (Hids' & b' & Hb' & Hid' & Hty').
    split; [by rewrite Hids'|].
    destruct (findBlock_same_ids _ _ blockId i b (eq_sym Hids') Hb) as [c Hc].
    exists c. split; [done|].
    apply findBlock_Some in Hc as (Hc & _). rewrite Hb' in Hc.
    injection Hc as <-. by rewrite Hty', Hty.
Qed.

(** Tab pressed twice in a scene heading. *)
Lemma handleKeyDown_tab_iterate_witness :
  map type
    (iterate 2 (fun bs => handleKeyDown bs (Some "1") Tab "1"
                            (mkDom "INT. BAR" 0 false "9"))
       [ newBlock "1" "scene-heading" "INT. BAR"; newBlock "2" "action" "Rain." ])
  = [ "character"; "action" ]
  /\ map id
       (iterate 2 (fun bs => handleKeyDown bs (Some "1") Tab "1"
                               (mkDom "INT. BAR" 0 false "9"))
          [ newBlock "1" "scene-heading" "INT. BAR"; newBlock "2" "action" "Rain." ])
     = [ "1"; "2" ].
Proof.
  split; [reflexivity|].
  apply (handleKeyDown_tab_iterate
           [ newBlock "1" "scene-heading" "INT. BAR"; newBlock "2" "action" "Rain." ]
           "1" (mkDom "INT. BAR" 0 false "9") 0%nat
           (newBlock "1" "scene-heading" "INT. BAR") 2%nat).
  reflexivity.
Defined.

Section EnterFrame.

Lemma spliceIn_after (i : nat) (x y : Block) (l : list Block) :
  l !! i = Some x ->
  spliceIn (i + 1) y l = take i l ++ x :: y :: drop (S i) l.
Proof.
  intros Hi. rewrite <- (list_insert_id l i x Hi) at 1.
  apply spliceIn_after_insert. by apply lookup_lt_Some in Hi.
Qed.

End EnterFrame.

(** X16. Enter that is not a double Enter adds exactly one block, whatever
    the type of the block it is pressed in: the new block has the fresh id,
    no number, comes right after the block and gets the focus; the block
    itself keeps its place, id, type and number (its text may change); all
    blocks before and after are as they were. *)
Theorem handleEnterKey_frame blocks blockId dom i current :
  findBlock blocks blockId = Some (i, current) ->
  (withinDoubleEnterDelay dom = false \/ type current <> "dialogue"
   \/ trim (substringTo (caretPos dom) (textContent dom)) <> "") ->
  exists kept added,
    handleEnterKey blocks blockId dom
    = (take i blocks ++ kept :: added :: drop (S i) blocks, freshId dom)
    /\ id kept = blockId /\ type kept = type current
    /\ number kept = number current
    /\ id added = freshId dom /\ number added = None
    /\ length (handleEnterKey blocks blockId dom).1 = S (length blocks).
Proof.
  intros Hfind Hslow.
  assert (Hdouble : withinDoubleEnterDelay dom && (type current === "dialogue")
                    && (trim (substringTo (caretPos dom) (textContent dom)) === "")
                    = false).
  { destruct Hslow as [->|[H|H]]; [done|..]; apply eqb_false in H; rewrite H.
    - apply andb_false_iff. left. apply andb_false_r.
    - apply andb_false_r. }
  pose proof (findBlock_Some _ _ _ _ Hfind) as (Hi & Hid & Hlen).
  assert (Hlength : forall kept added : Block,
             length (take i blocks ++ kept :: added :: drop (S i) blocks)
             = S (length blocks)).
  { intros kept added. rewrite length_app, length_take. cbn [length].
    rewrite length_drop. lia. }
  unfold handleEnterKey. rewrite Hfind, Hdouble.
  destruct (type current === "transition").
  - destruct (negb (trim (substringTo (caretPos dom) (textContent dom)) === "")).
    + rewrite spliceIn_after_insert by done.
      eexists _, _. split; [reflexivity|]. cbn [fst]. rewrite Hlength. done.
    + rewrite (spliceIn_after i current) by done.
      eexists _, _. split; [reflexivity|]. cbn [fst]. rewrite Hlength. done.
  - destruct (type current === "parenthetical").
    + destruct (negb (endsWith (substringTo (caretPos dom) (textContent dom)) ")")).
      * rewrite spliceIn_after_insert by done.
        eexists _, _. split; [reflexivity|]. cbn [fst]. rewrite Hlength. done.
      * rewrite (spliceIn_after i current) by done.
        eexists _, _. split; [reflexivity|]. cbn [fst]. rewrite Hlength. done.
    + rewrite spliceIn_after_insert by done.
      eexists _, _. split; [reflexivity|]. cbn [fst]. rewrite Hlength. done.
Qed.

(** Enter at the end of a parenthetical that lacks its closing bracket. *)
Lemma handleEnterKey_frame_witness :
  handleEnterKey
    [ newBlock "1" "character" "BOB"; newBlock "2" "parenthetical" "(softly" ]
    "2" (mkDom "(softly" 7 false "9")
  = ([ newBlock "1" "character" "BOB"; newBlock "2" "parenthetical" "(softly)";
       newBlock "9" "dialogue" "" ], "9")
  /\ exists kept added,
       handleEnterKey
         [ newBlock "1" "character" "BOB"; newBlock "2" "parenthetical" "(softly" ]
         "2" (mkDom "(softly" 7 false "9")
       = (take 1 [ newBlock "1" "character" "BOB";
                   newBlock "2" "parenthetical" "(softly" ]
          ++ kept :: added
          :: drop 2 [ newBlock "1" "character" "BOB";
                      newBlock "2" "parenthetical" "(softly" ], "9")
       /\ id kept = "2" /\ type kept = "parenthetical".
Proof.
  split; [reflexivity|].
  destruct (handleEnterKey_frame
              [ newBlock "1" "character" "BOB"; newBlock "2" "parenthetical" "(softly" ]
              "2" (mkDom "(softly" 7 false "9") 1%nat
              (newBlock "2" "parenthetical" "(softly") eq_refl
              (or_introl eq_refl))
    as (kept & added & H1 & H2 & H3 & _).
  exists kept, added. split; [exact H1|]. split; [exact H2|exact H3].
Defined.

(** ** Leases and the outcome of a save *)

Section Leases.


Lemma eqb_neq (a b : string) : a <> b -> (a === b) = false.
Proof. intros H. by apply String.eqb_neq. Qed.




End Leases.



Section Renewal.


End Renewal.



Section Paths.








End Paths.

Section SaveScene.


Lemma getEffectiveScreenplayId_settled env w :
  getEffectiveScreenplayId env (settled env w) = getEffectiveScreenplayId env w.
Proof.
  unfold settled. unfold getEffectiveScreenplayId, orElse. simpl.
  destruct (truthy (default "" (urlScreenplayId env))); [done|].
  destruct (screenplayId w === "default-screenplay-id") eqn:E.
  - apply eqb_true in E.
    destruct (pathScreenplayId env) as [fromPath|].
    + destruct (truthy fromPath && negb (fromPath === "default-screenplay-id"))
        eqn:Hpath.
      * apply andb_true_iff in Hpath as [_ Hpath].
        apply negb_true_iff in Hpath. by rewrite Hpath.
      * destruct (truthy (projectId env));
          [by destruct (projectId env === "default-screenplay-id")|].
        by rewrite E.
    + destruct (truthy (projectId env));
        [by destruct (projectId env === "default-screenplay-id")|].
      by rewrite E.
  - by rewrite E.
Qed.


End SaveScene.

Section SaveSceneWrites.



End SaveSceneWrites.





(** X21. The effective screenplay id settles: once the manager has taken
    it as its own id, asking again gives the same id.  And the placeholder
    id comes out only when nothing better is at hand: the id from the query
    string, or else the manager's own, is the placeholder, the path holds
    no id or the placeholder, and the project id is empty or the
    placeholder. *)
Theorem getEffectiveScreenplayId_settles env w :
  getEffectiveScreenplayId env (settled env w) = getEffectiveScreenplayId env w
  /\ (getEffectiveScreenplayId env w = "default-screenplay-id" <->
      orElse (default "" (urlScreenplayId env)) (screenplayId w)
      = "default-screenplay-id"
      /\ (forall fromPath,
            pathScreenplayId env = Some fromPath ->
            fromPath = "" \/ fromPath = "default-screenplay-id")
      /\ (projectId env = "" \/ projectId env = "default-screenplay-id")).
Proof.
  split; [apply getEffectiveScreenplayId_settled|].
  unfold getEffectiveScreenplayId.
  set (effective := orElse (default "" (urlScreenplayId env)) (screenplayId w)).
  destruct (effective === "default-screenplay-id") eqn:E.
  - apply eqb_true in E.
    assert (Hproject :
              (if truthy (projectId env) then projectId env else effective)
              = "default-screenplay-id"
              <-> projectId env = "" \/ projectId env = "default-screenplay-id").
    { destruct (truthy (projectId env)) eqn:T.
      - apply truthy_true in T. split; [by right|]. by intros [H|H].
      - apply truthy_false in T. split; [by left|done]. }
    destruct (pathScreenplayId env) as [fromPath|].
    + destruct (truthy fromPath && negb (fromPath === "default-screenplay-id"))
        eqn:Hpath.
      * apply andb_true_iff in Hpath as [T N].
        apply truthy_true in T. apply negb_true_iff in N.
        split.
        -- intros H. rewrite H in N. done.
        -- intros (_ & H & _). destruct (H fromPath eq_refl) as [->| ->]; done.
      * rewrite Hproject. split.
        -- intros H. split; [done|]. split; [|done].
           intros fromPath' [= <-].
           apply andb_false_iff in Hpath as [T|N].
           ++ left. by apply truthy_false.
           ++ right. apply negb_false_iff in N. by apply eqb_true.
        -- by intros (_ & _ & H).
    + rewrite Hproject. split.
      * intros H. split; [done|]. split; [|done]. intros; discriminate.
      * by intros (_ & _ & H).
  - split.
    + intros H. rewrite H in E. done.
    + intros (H & _). rewrite H in E. done.
Qed.

(** ** Sentences, chunks, dialogue records and the normal form of a scene *)

Section VisibleText.

Lemma visible_app (a b : string) : visible (a +:+ b) = visible a +:+ visible b.
Proof.
  induction a as [|c a IH]; [by rewrite !app_empty_l|].
  rewrite app_cons. simpl. destruct (isWhiteSpace c); [done|].
  by rewrite app_cons, IH.
Qed.

Lemma visible_join_cons sep (x : string) (rest : list string) :
  visible sep = "" ->
  visible (join sep (x :: rest)) = visible x +:+ visible (join sep rest).
Proof.
  intros Hsep. destruct rest as [|y rest].
  - simpl. by rewrite app_empty_r.
  - rewrite join_cons2, !visible_app, Hsep, app_empty_l. done.
Qed.

Lemma visible_join_app sep (l1 l2 : list string) :
  visible sep = "" ->
  visible (join sep (l1 ++ l2))
  = visible (join sep l1) +:+ visible (join sep l2).
Proof.
  intros Hsep. induction l1 as [|x l1 IH]; [by rewrite app_empty_l|].
  change ((x :: l1) ++ l2) with (x :: (l1 ++ l2)).
  by rewrite !visible_join_cons, IH, app_assoc_s.
Qed.

(** The pieces of [split] hold the visible characters of the text. *)
Lemma splitFrom_visible sep (afterEnd inGap : bool) (s : string) :
  visible sep = "" ->
  visible (join sep ((splitFrom afterEnd inGap s).1 :: (splitFrom afterEnd inGap s).2))
  = visible s.
Proof.
  intros Hsep. revert afterEnd inGap.
  induction s as [|c s IH]; intros afterEnd inGap; [done|].
  cbn [splitFrom].
  destruct (isWhiteSpace c && (inGap || afterEnd)) eqn:Hgap.
  - apply andb_true_iff in Hgap as [Hc _].
    cbn [visible]. rewrite Hc.
    destruct inGap.
    + apply IH.
    + specialize (IH false true).
      destruct (splitFrom false true s) as [piece more]. cbn [fst snd] in *.
      by rewrite visible_join_cons.
  - specialize (IH (isSentenceEnd c) false).
    destruct (splitFrom (isSentenceEnd c) false s) as [piece more].
    cbn [fst snd] in *.
    rewrite visible_join_cons in IH |- * by done.
    change (String c piece) with (String c "" +:+ piece).
    change (String c s) with (String c "" +:+ s).
    rewrite !visible_app, <- IH. by rewrite app_assoc_s.
Qed.

Lemma chunkLoop_visible sep (chunks : list string) (currentChunk : string)
    (sentences : list string) :
  visible sep = "" ->
  visible (join sep ((chunkLoop chunks currentChunk sentences).1
                     ++ [(chunkLoop chunks currentChunk sentences).2]))
  = visible (join sep chunks) +:+ visible currentChunk
    +:+ visible (join sep sentences).
Proof.
  intros Hsep. revert chunks currentChunk.
  induction sentences as [|sentence rest IH]; intros chunks currentChunk.
  - cbn [chunkLoop fst snd]. rewrite visible_join_app by done.
    simpl. by rewrite !app_empty_r.
  - cbn [chunkLoop].
    destruct (SCENE_SIZE_LIMIT <? len (currentChunk +:+ sentence))%Z.
    + rewrite IH, visible_join_app, (visible_join_cons sep sentence rest) by done.
      cbn [join]. by rewrite !app_assoc_s.
    + rewrite IH, (visible_join_cons sep sentence rest), !visible_app by done.
      assert (visible (if truthy currentChunk then " " else "") = "") as ->
        by by destruct (truthy currentChunk).
      by rewrite app_empty_l, !app_assoc_s.
Qed.

End VisibleText.

(** X22. Splitting an action text into chunks loses no visible character:
    the chunks, put together, hold the characters of the text that are not
    white space, all of them and in the same order.  The same holds of the
    sentences that the text is split into first.  (White space is not
    kept: a line break between two action blocks can become a space.) *)
Theorem splitActionIntoChunks_keeps_visible_text (action : string) :
  visible (join " " (splitActionIntoChunks action)) = visible action
  /\ visible (join " " (splitSentences action)) = visible action.
Proof.
  assert (Hs : visible (join " " (splitSentences action)) = visible action).
  { unfold splitSentences.
    pose proof (splitFrom_visible " " false false action eq_refl) as H.
    by destruct (splitFrom false false action). }
  split; [|exact Hs].
  unfold splitActionIntoChunks.
  pose proof (chunkLoop_visible " " [] "" (splitSentences action) eq_refl) as H.
  destruct (chunkLoop [] "" (splitSentences action)) as [chunks currentChunk].
  cbn [fst snd] in H. rewrite Hs in H.
  change (visible (join " " [])) with "" in H.
  change (visible "") with "" in H. rewrite !app_empty_l in H.
  destruct (truthy currentChunk) eqn:T; [exact H|].
  apply truthy_false in T. subst currentChunk.
  rewrite visible_join_app in H by done.
  simpl in H. by rewrite app_empty_r in H.
Qed.

Section Dialogues.

(** A dialogue record as the loop of [saveScene] makes them. *)
Lemma dialogueLoop_named (currentCharacter currentParenthetical : option string)
    (l : list Block) :
  Forall (fun d => characterName d <> "" /\ parenthetical d <> Some "")
         (dialogueLoop currentCharacter currentParenthetical l).
Proof.
  revert currentCharacter currentParenthetical.
  induction l as [|b l IH]; intros cc cp; [constructor|].
  cbn [dialogueLoop].
  destruct (type b === "character"); [apply IH|].
  destruct (type b === "parenthetical"); [apply IH|].
  destruct ((type b === "dialogue") && truthy (default "" cc)) eqn:E; [|apply IH].
  apply andb_true_iff in E as [_ E]. constructor; [|apply IH]. simpl. split.
  - by apply truthy_true.
  - destruct cp as [p|]; simpl; [|done].
    destruct (truthy p) eqn:T; [|done].
    apply truthy_true in T. congruence.
Qed.

Lemma dialogueLoop_texts (currentCharacter currentParenthetical : option string)
    (l : list Block) :
  map text (dialogueLoop currentCharacter currentParenthetical
              (List.filter isSpeech l))
  `sublist_of` map content (List.filter (isType "dialogue") l).
Proof.
  revert currentCharacter currentParenthetical.
  induction l as [|b l IH]; intros cc cp; [constructor|].
  cbn [List.filter]. unfold isSpeech at 1, isType at 1.
  destruct (type b === "character") eqn:Ec.
  - apply eqb_true in Ec. cbn [orb dialogueLoop]. rewrite Ec. apply IH.
  - destruct (type b === "dialogue") eqn:Ed.
    + cbn [orb dialogueLoop]. rewrite Ec, Ed.
      apply eqb_true in Ed. rewrite Ed. cbn [String.eqb Ascii.eqb Bool.eqb andb].
      destruct (truthy (default "" cc)).
      * cbn [map text]. apply sublist_skip, IH.
      * cbn [map]. apply sublist_cons, IH.
    + cbn [orb]. destruct (type b === "parenthetical") eqn:Ep.
      * cbn [dialogueLoop]. rewrite Ec, Ep. apply IH.
      * apply IH.
Qed.

(** With a character in mind and every character block named, every
    dialogue block gives a record. *)
Lemma dialogueLoop_all (currentCharacter currentParenthetical : option string)
    (l : list Block) :
  truthy (default "" currentCharacter) = true ->
  Forall (fun b => type b = "character" -> content b <> "") l ->
  map text (dialogueLoop currentCharacter currentParenthetical
              (List.filter isSpeech l))
  = map content (List.filter (isType "dialogue") l).
Proof.
  intros Hcc Hnamed. revert currentCharacter currentParenthetical Hcc.
  induction Hnamed as [|b l Hb _ IH]; intros cc cp Hcc; [done|].
  cbn [List.filter]. unfold isSpeech at 1, isType at 1.
  destruct (type b === "character") eqn:Ec.
  - apply eqb_true in Ec. cbn [orb dialogueLoop]. rewrite Ec.
    cbn [String.eqb Ascii.eqb Bool.eqb]. apply IH. simpl.
    apply truthy_true. by apply Hb.
  - destruct (type b === "dialogue") eqn:Ed.
    + cbn [orb dialogueLoop]. rewrite Ec, Ed, Hcc.
      apply eqb_true in Ed. rewrite Ed. cbn [String.eqb Ascii.eqb Bool.eqb andb].
      cbn [map text]. f_equal. by apply IH.
    + cbn [orb]. destruct (type b === "parenthetical") eqn:Ep.
      * cbn [dialogueLoop]. rewrite Ec, Ep. by apply IH.
      * by apply IH.
Qed.

End Dialogues.

(** X23. The dialogue records that [saveScene] builds are well formed:
    each has a character name that is not empty and a parenthetical that is
    absent or not empty, and their texts are contents of dialogue blocks of
    the scene, in order.  Dialogue blocks can be left out (those that no
    named character precedes); when the scene starts with a character
    block and every character block has a name, every dialogue block gives
    a record. *)
Theorem buildSceneContent_dialogues (sceneId : string) (blocks : list Block) :
  Forall (fun d => characterName d <> "" /\ parenthetical d <> Some "")
         (dialogues (buildSceneContent sceneId blocks))
  /\ map text (dialogues (buildSceneContent sceneId blocks))
     `sublist_of` map content (List.filter (isType "dialogue") blocks)
  /\ (forall first rest,
        blocks = first :: rest ->
        type first = "character" ->
        Forall (fun b => type b = "character" -> content b <> "") blocks ->
        map text (dialogues (buildSceneContent sceneId blocks))
        = map content (List.filter (isType "dialogue") blocks)).
Proof.
  unfold buildSceneContent. cbn [dialogues].
  split; [apply dialogueLoop_named|]. split; [apply dialogueLoop_texts|].
  intros first rest -> Hfirst Hnamed.
  apply Forall_cons in Hnamed as [Hname Hnamed].
  cbn [List.filter]. unfold isSpeech at 1, isType at 1. rewrite Hfirst.
  cbn [String.eqb Ascii.eqb Bool.eqb orb dialogueLoop]. rewrite Hfirst.
  cbn [String.eqb Ascii.eqb Bool.eqb].
  apply dialogueLoop_all; [|done].
  simpl. apply truthy_true. by apply Hname.
Qed.

Section NormalForm.




End NormalForm.


Section Sentences.

Lemma endsSentence_cons (c : ascii) (piece : string) :
  endsSentence piece = true \/ (piece = "" /\ isSentenceEnd c = true) ->
  endsSentence (String c piece) = true.
Proof.
  intros [H|[-> H]]; [|done]. destruct piece; [done|]. exact H.
Qed.

(** What holds of the pieces that the scan gives from any point. *)
Lemma splitFrom_pieces (s : string) :
  forall afterEnd inGap : bool,
    (inGap = true -> afterEnd = false) ->
    (* the piece under way *)
    ((afterEnd || inGap) = true ->
     startsWithSpace (splitFrom afterEnd inGap s).1 = false)
    /\ hasBoundary (splitFrom afterEnd inGap s).1 = false
    /\ ((splitFrom afterEnd inGap s).2 <> [] ->
        endsSentence (splitFrom afterEnd inGap s).1 = true
        \/ ((splitFrom afterEnd inGap s).1 = "" /\ afterEnd = true))
    (* the pieces after it *)
    /\ Forall (fun piece => startsWithSpace piece = false
                            /\ hasBoundary piece = false)
              (splitFrom afterEnd inGap s).2
    /\ Forall (fun piece => endsSentence piece = true)
              (removelast (splitFrom afterEnd inGap s).2).
Proof.
  induction s as [|c s IH]; intros afterEnd inGap Hflags.
  - cbn [splitFrom fst snd]. repeat split; try done; constructor.
  - cbn [splitFrom].
    destruct (isWhiteSpace c && (inGap || afterEnd)) eqn:Hgap.
    + destruct inGap.
      * rewrite (Hflags eq_refl). apply (IH false true). done.
      * destruct (IH false true (fun _ => eq_refl)) as (H1 & H2 & H3 & H4 & H5).
        destruct (splitFrom false true s) as [piece more]. cbn [fst snd] in *.
        apply andb_true_iff in Hgap as [_ Hgap]. cbn [orb] in Hgap. subst afterEnd.
        split; [done|]. split; [done|]. split; [by right|]. split.
        -- constructor; [|exact H4]. split; [by apply H1|exact H2].
        -- destruct more as [|piece' more']; [constructor|].
           change (removelast (piece :: piece' :: more'))
             with (piece :: removelast (piece' :: more')).
           constructor; [|exact H5].
           destruct H3 as [H3|[_ H3]]; done.
    + destruct (IH (isSentenceEnd c) false (fun H => ltac:(discriminate H)))
        as (H1 & H2 & H3 & H4 & H5).
      destruct (splitFrom (isSentenceEnd c) false s) as [piece more].
      cbn [fst snd] in *.
      split; [|split; [|split; [|split]]].
      * intros Hflag. cbn [startsWithSpace].
        destruct (isWhiteSpace c); [|done]. cbn [andb] in Hgap.
        rewrite orb_comm in Hflag. congruence.
      * cbn [hasBoundary]. rewrite H2, orb_false_r.
        destruct (isSentenceEnd c); [|done]. cbn [andb]. by apply H1.
      * intros Hmore. left. apply (endsSentence_cons c piece).
        destruct (H3 Hmore) as [H|[H H']]; [by left|by right].
      * exact H4.
      * exact H5.
Qed.

End Sentences.

(** X25. The sentences that an action text is split into: every sentence
    but the last ends with one of [.!?]; no sentence but the first starts
    with white space; and no sentence holds one of [.!?] followed by white
    space, that is, a place where the text should have been cut. *)
Theorem splitSentences_pieces (action : string) :
  Forall (fun sentence => endsSentence sentence = true)
         (removelast (splitSentences action))
  /\ Forall (fun sentence => startsWithSpace sentence = false)
            (tail (splitSentences action))
  /\ Forall (fun sentence => hasBoundary sentence = false)
            (splitSentences action).
Proof.
  unfold splitSentences.
  destruct (splitFrom_pieces action false false (fun H => ltac:(discriminate H)))
    as (_ & H2 & H3 & H4 & H5).
  destruct (splitFrom false false action) as [piece more]. cbn [fst snd tail] in *.
  split; [|split].
  - destruct more as [|piece' more']; [constructor|].
    change (removelast (piece :: piece' :: more'))
      with (piece :: removelast (piece' :: more')).
    constructor; [|exact H5].
    destruct H3 as [H3|[_ H3]]; done.
  - eapply Forall_impl; [exact H4|]. by intros x [Hx _].
  - constructor; [exact H2|].
    eapply Forall_impl; [exact H4|]. by intros x [_ Hx].
Qed.

(** ** The undo history, and the characters and scenes of a save *)

Section UndoRedo.

Lemma lookup_last_snoc {A : Type} (l : list A) (x : A) :
  (l ++ [x]) !! (length (l ++ [x]) - 1)%nat = Some x.
Proof.
  rewrite length_app. cbn [length].
  replace (length l + 1 - 1)%nat with (length l) by lia.
  apply list_lookup_middle. done.
Qed.

Lemma dropLast_snoc {A : Type} (l : list A) (x : A) :
  History.dropLast (l ++ [x]) = l.
Proof.
  unfold History.dropLast. rewrite length_app. cbn [length].
  replace (length l + 1 - 1)%nat with (length l) by lia.
  by rewrite take_app_length.
Qed.

Lemma nonempty_snoc_length {A : Type} (l : list A) (x : A) :
  (0 <? length (l ++ [x]))%nat = true.
Proof. rewrite length_app. cbn [length]. apply Nat.ltb_lt. lia. Qed.

Lemma handleUndo_snoc bs undo redo sel previousState :
  History.handleUndo (History.mkEditorState bs (undo ++ [previousState]) redo sel)
  = History.mkEditorState previousState undo (redo ++ [bs]) ∅.
Proof.
  unfold History.handleUndo. cbn [History.undoStack History.redoStack History.blocks].
  by rewrite nonempty_snoc_length, lookup_last_snoc, dropLast_snoc.
Qed.

Lemma handleRedo_snoc bs undo redo sel nextState :
  History.handleRedo (History.mkEditorState bs undo (redo ++ [nextState]) sel)
  = History.mkEditorState nextState (undo ++ [bs]) redo ∅.
Proof.
  unfold History.handleRedo. cbn [History.undoStack History.redoStack History.blocks].
  by rewrite nonempty_snoc_length, lookup_last_snoc, dropLast_snoc.
Qed.

End UndoRedo.

(** X26. Undo and redo of the editor component undo one another.  After an
    edit (the state goes to the history, then the blocks are replaced),
    undo gives back the blocks and the undo stack from before the edit and
    keeps the edited blocks for redo, and redo then gives back the edited
    blocks and the stacks that the edit left.  An edit empties the redo
    stack, so redo right after an edit does nothing.  In any state with
    something to undo, undo followed by redo gives back blocks and stacks;
    with something to redo, so does redo followed by undo.  Undo with an
    empty undo stack and redo with an empty redo stack do nothing. *)
Theorem handleUndo_handleRedo (st : History.EditorState) (newBlocks : list Block) :
  History.handleUndo (History.edit st newBlocks)
  = History.mkEditorState (History.blocks st) (History.undoStack st) [newBlocks] ∅
  /\ History.handleRedo (History.handleUndo (History.edit st newBlocks))
     = History.mkEditorState newBlocks
         (History.undoStack (History.edit st newBlocks))
         (History.redoStack (History.edit st newBlocks)) ∅
  /\ History.handleRedo (History.edit st newBlocks) = History.edit st newBlocks
  /\ (History.undoStack st <> [] ->
      History.handleRedo (History.handleUndo st)
      = History.mkEditorState (History.blocks st) (History.undoStack st)
          (History.redoStack st) ∅)
  /\ (History.redoStack st <> [] ->
      History.handleUndo (History.handleRedo st)
      = History.mkEditorState (History.blocks st) (History.undoStack st)
          (History.redoStack st) ∅)
  /\ (History.undoStack st = [] -> History.handleUndo st = st)
  /\ (History.redoStack st = [] -> History.handleRedo st = st).
Proof.
  destruct st as [bs undo redo sel].
  unfold History.edit, History.addToHistory, History.setBlocks.
  cbn [History.undoStack History.redoStack History.blocks History.selectedBlocks].
  assert (H1 : History.handleUndo
                 (History.mkEditorState newBlocks (undo ++ [bs]) [] sel)
               = History.mkEditorState bs undo [newBlocks] ∅)
    by apply handleUndo_snoc.
  split; [exact H1|]. split; [|split; [done|]].
  { rewrite H1. apply (handleRedo_snoc bs undo [] ∅ newBlocks). }
  split; [|split; [|split]].
  - intros Hne. destruct (exists_last Hne) as (undo' & x & ->).
    by rewrite handleUndo_snoc, handleRedo_snoc.
  - intros Hne. destruct (exists_last Hne) as (redo' & x & ->).
    by rewrite handleRedo_snoc, handleUndo_snoc.
  - by intros ->.
  - by intros ->.
Qed.

Section Characters.

Lemma setAdd_NoDup (name : string) (characters : list string) :
  NoDup characters -> NoDup (setAdd name characters).
Proof.
  intros H. unfold setAdd. destruct (bool_decide (name ∈ characters)) eqn:E.
  - done.
  - apply bool_decide_eq_false in E.
    apply NoDup_app. split; [done|]. split; [|apply NoDup_singleton].
    intros x Hx Hx'. apply list_elem_of_singleton in Hx'. by subst.
Qed.

Lemma setAdd_elem_of (name x : string) (characters : list string) :
  x ∈ setAdd name characters <-> x ∈ characters \/ x = name.
Proof.
  unfold setAdd. destruct (bool_decide (name ∈ characters)) eqn:E.
  - apply bool_decide_eq_true in E. split; [by left|]. by intros [H| ->].
  - rewrite elem_of_app, list_elem_of_singleton. done.
Qed.

Lemma extractCharacters_fold (characters : list string) (blocks : list Block) :
  NoDup characters ->
  Forall (fun name => trim name = name) characters ->
  NoDup (foldl (fun characters block =>
                  if type block === "character"
                  then setAdd (trim (content block)) characters
                  else characters) characters blocks)
  /\ Forall (fun name => trim name = name)
       (foldl (fun characters block =>
                 if type block === "character"
                 then setAdd (trim (content block)) characters
                 else characters) characters blocks)
  /\ forall name,
       name ∈ foldl (fun characters block =>
                       if type block === "character"
                       then setAdd (trim (content block)) characters
                       else characters) characters blocks
       <-> name ∈ characters
           \/ exists b, b ∈ blocks /\ type b = "character"
                        /\ trim (content b) = name.
Proof.
  revert characters. induction blocks as [|b blocks IH]; intros characters Hnd Htr.
  - cbn [foldl]. split; [done|]. split; [done|]. intros name. split; [by left|].
    intros [H|(b & Hb & _)]; [done|]. by apply elem_of_nil in Hb.
  - cbn [foldl]. destruct (type b === "character") eqn:E.
    + apply eqb_true in E.
      destruct (IH (setAdd (trim (content b)) characters)) as (H1 & H2 & H3).
      * by apply setAdd_NoDup.
      * apply Forall_forall. intros x Hx. apply setAdd_elem_of in Hx as [Hx| ->].
        -- by apply (proj1 (Forall_forall _ _) Htr).
        -- apply trim_idempotent.
      * split; [done|]. split; [done|]. intros name. rewrite H3, setAdd_elem_of.
        split.
        -- intros [[H|H]|(b' & Hb' & Hty & Hname)].
           ++ by left.
           ++ right. exists b. split; [apply list_elem_of_here|done].
           ++ right. exists b'. split; [by apply list_elem_of_further|done].
        -- intros [H|(b' & Hb' & Hty & Hname)]; [by left; left|].
           apply elem_of_cons in Hb' as [->|Hb'].
           ++ left. by right.
           ++ right. by exists b'.
    + destruct (IH characters Hnd Htr) as (H1 & H2 & H3).
      split; [done|]. split; [done|]. intros name. rewrite H3. split.
      * intros [H|(b' & Hb' & Hty & Hname)]; [by left|].
        right. exists b'. split; [by apply list_elem_of_further|done].
      * intros [H|(b' & Hb' & Hty & Hname)]; [by left|].
        apply elem_of_cons in Hb' as [->|Hb'].
        -- rewrite Hty in E. done.
        -- right. by exists b'.
Qed.

End Characters.

(** X27. The characters extracted from the blocks are exactly the trimmed
    contents of the character blocks, each listed once, with nothing to
    trim left; the content of a block of another type is never among them
    for that block's sake. *)
Theorem extractCharacters_spec (blocks : list Block) :
  NoDup (extractCharacters blocks)
  /\ Forall (fun name => trim name = name) (extractCharacters blocks)
  /\ forall name,
       name ∈ extractCharacters blocks
       <-> exists b, b ∈ blocks /\ type b = "character"
                     /\ trim (content b) = name.
Proof.
  destruct (extractCharacters_fold [] blocks (NoDup_nil_2) (Forall_nil_2 _))
    as (H1 & H2 & H3).
  split; [exact H1|]. split; [exact H2|].
  intros name. unfold extractCharacters. rewrite H3. split.
  - intros [H|H]; [by apply elem_of_nil in H|done].
  - by right.
Qed.

Section Grouping.

Lemma mapSet_fresh (key : nat) (value : list Block) (scenes : list (nat * list Block)) :
  Forall (fun entry => (entry.1 < key)%nat) scenes ->
  mapSet key value scenes = scenes ++ [(key, value)].
Proof.
  induction 1 as [|[k v] scenes Hk _ IH]; [done|].
  cbn [mapSet]. simpl in Hk.
  destruct (k =? key)%nat eqn:E; [apply Nat.eqb_eq in E; lia|].
  by rewrite IH.
Qed.

Lemma keys_fresh (key : nat) (value : list Block) (scenes : list (nat * list Block)) :
  Forall (fun entry => (entry.1 < key)%nat) scenes ->
  NoDup (map fst scenes) ->
  NoDup (map fst (scenes ++ [(key, value)])).
Proof.
  intros Hkeys Hnd. rewrite map_app. cbn [map fst].
  apply NoDup_app. split; [done|]. split; [|apply NoDup_singleton].
  intros k Hk Hk'. apply list_elem_of_singleton in Hk'. subst k.
  apply list_elem_of_fmap in Hk as ([k v] & Hkv & Hin). simpl in Hkv. subst k.
  pose proof (proj1 (Forall_forall _ _) Hkeys _ Hin) as Hlt. simpl in Hlt. lia.
Qed.

Lemma groupLoop_heading scenes num cur (b : Block) (n : nat) rest :
  (type b === "scene-heading") = true ->
  groupLoop scenes num cur (withNumber b (Some n) :: rest)
  = groupLoop (if (0 <? length cur)%nat then mapSet num cur scenes else scenes)
      n [withNumber b (Some n)] rest.
Proof.
  intros H. cbn [groupLoop].
  change (type (withNumber b (Some n))) with (type b). by rewrite H.
Qed.

Lemma groupLoop_other scenes num cur (b : Block) (n : option nat) rest :
  (type b === "scene-heading") = false ->
  groupLoop scenes num cur (withNumber b n :: rest)
  = groupLoop scenes num (cur ++ [withNumber b n]) rest.
Proof.
  intros H. cbn [groupLoop].
  change (type (withNumber b n)) with (type b). by rewrite H.
Qed.

(** The loop on numbered blocks: scene numbers go up, so no entry of the
    map is ever replaced. *)
Lemma groupLoop_numbered (l : list Block) :
  forall (sc dc : nat) (scenes : list (nat * list Block)) (num : nat)
         (cur : list Block),
    Forall (fun entry => (entry.1 < num)%nat) scenes ->
    NoDup (map fst scenes) ->
    (cur = [] -> scenes = []) ->
    (num <= sc)%nat ->
    Forall (fun entry => (entry.1 < (groupLoop scenes num cur (numberBlocks sc dc l)).1.2)%nat)
           (groupLoop scenes num cur (numberBlocks sc dc l)).1.1
    /\ NoDup (map fst (groupLoop scenes num cur (numberBlocks sc dc l)).1.1)
    /\ concat (map snd (groupLoop scenes num cur (numberBlocks sc dc l)).1.1)
       ++ (groupLoop scenes num cur (numberBlocks sc dc l)).2
       = concat (map snd scenes) ++ cur ++ numberBlocks sc dc l.
Proof.
  induction l as [|b l IH]; intros sc dc scenes num cur Hkeys Hnd Hcur Hnum.
  - cbn [numberBlocks groupLoop fst snd]. by rewrite app_nil_r.
  - cbn [numberBlocks]. destruct (type b === "scene-heading") eqn:Eh.
    + rewrite (groupLoop_heading _ _ _ _ _ _ Eh).
      destruct (0 <? length cur)%nat eqn:Elen.
      * rewrite (mapSet_fresh num cur scenes Hkeys).
        destruct (IH (S sc) dc (scenes ++ [(num, cur)]) (S sc)
                     [withNumber b (Some (S sc))]) as (H1 & H2 & H3).
        -- apply Forall_app. split.
           ++ eapply Forall_impl; [exact Hkeys|]. simpl. intros; lia.
           ++ constructor; [simpl; lia|constructor].
        -- by apply keys_fresh.
        -- done.
        -- lia.
        -- split; [exact H1|]. split; [exact H2|].
           rewrite H3, map_app, concat_app. cbn [map concat snd].
           rewrite app_nil_r, <- !app_assoc. done.
      * assert (cur = []) as ->.
        { destruct cur; [done|]. simpl in Elen. done. }
        rewrite (Hcur eq_refl) in *.
        destruct (IH (S sc) dc [] (S sc) [withNumber b (Some (S sc))])
          as (H1 & H2 & H3); [constructor|constructor|done|lia|].
        split; [exact H1|]. split; [exact H2|]. rewrite H3. done.
    + assert (Hother : forall n rest,
                 groupLoop scenes num cur (withNumber b n :: rest)
                 = groupLoop scenes num (cur ++ [withNumber b n]) rest)
        by (intros; by apply groupLoop_other).
      assert (Hstep : forall n sc' dc',
                 (num <= sc')%nat ->
                 Forall (fun entry =>
                           (entry.1 < (groupLoop scenes num (cur ++ [withNumber b n])
                                         (numberBlocks sc' dc' l)).1.2)%nat)
                        (groupLoop scenes num (cur ++ [withNumber b n])
                           (numberBlocks sc' dc' l)).1.1
                 /\ NoDup (map fst (groupLoop scenes num (cur ++ [withNumber b n])
                                      (numberBlocks sc' dc' l)).1.1)
                 /\ concat (map snd (groupLoop scenes num (cur ++ [withNumber b n])
                                       (numberBlocks sc' dc' l)).1.1)
                    ++ (groupLoop scenes num (cur ++ [withNumber b n])
                          (numberBlocks sc' dc' l)).2
                    = concat (map snd scenes) ++ cur
                      ++ withNumber b n :: numberBlocks sc' dc' l).
      { intros n sc' dc' Hle.
        destruct (IH sc' dc' scenes num (cur ++ [withNumber b n]) Hkeys Hnd)
          as (H1 & H2 & H3); [by destruct cur|done|].
        split; [exact H1|]. split; [exact H2|].
        rewrite H3, <- !app_assoc. done. }
      destruct (type b === "dialogue"); rewrite Hother; by apply Hstep.
Qed.

Lemma groupLoop_same_scene scenes num cur (body rest : list Block) :
  Forall (fun b => type b <> "scene-heading") body ->
  groupLoop scenes num cur (body ++ rest)
  = groupLoop scenes num (cur ++ body) rest.
Proof.
  intros H. revert cur. induction H as [|b body Hb _ IH]; intros cur.
  - by rewrite app_nil_r.
  - cbn [app groupLoop]. apply eqb_false in Hb.
    rewrite Hb, IH, <- app_assoc. done.
Qed.

End Grouping.

(** X28. Grouping the blocks by scene loses nothing when the blocks are
    numbered: for the blocks that [updateBlockNumbers] gives, the groups,
    in the order of the map, put together are the blocks again, and no two
    groups have the same key. *)
Theorem groupBlocksByScene_numbered (blocks : list Block) :
  concat (map snd (groupBlocksByScene (updateBlockNumbers blocks)))
  = updateBlockNumbers blocks
  /\ NoDup (map fst (groupBlocksByScene (updateBlockNumbers blocks))).
Proof.
  unfold groupBlocksByScene, updateBlockNumbers.
  destruct (groupLoop_numbered blocks 0 0 [] 0 [])
    as (H1 & H2 & H3); [constructor|constructor|done|lia|].
  destruct (groupLoop [] 0%nat [] (numberBlocks 0 0 blocks))
    as [[scenes num] cur].
  cbn [fst snd] in *. cbn [map concat app] in H3.
  destruct (0 <? length cur)%nat eqn:Elen.
  - rewrite (mapSet_fresh num cur scenes H1). split; [|by apply keys_fresh].
    rewrite map_app, concat_app. cbn [map concat snd].
    by rewrite app_nil_r.
  - assert (cur = []) as -> by (destruct cur; [done|simpl in Elen; done]).
    rewrite app_nil_r in H3. done.
Qed.

(** X29. Grouping by scene keys the groups by the number of the scene
    heading, so a scene whose heading has the number of an earlier heading
    takes its place: of two scenes with the same number (or both without
    one), only the second is among the groups. *)
Theorem groupBlocksByScene_same_number (h1 h2 : Block) (body1 body2 : list Block) :
  type h1 = "scene-heading" -> type h2 = "scene-heading" ->
  default 0%nat (number h1) = default 0%nat (number h2) ->
  Forall (fun b => type b <> "scene-heading") body1 ->
  Forall (fun b => type b <> "scene-heading") body2 ->
  groupBlocksByScene (h1 :: body1 ++ h2 :: body2)
  = [(default 0%nat (number h2), h2 :: body2)].
Proof.
  intros Hh1 Hh2 Hsame Hbody1 Hbody2. unfold groupBlocksByScene.
  cbn [groupLoop]. rewrite Hh1. cbn [String.eqb Ascii.eqb Bool.eqb length Nat.ltb Nat.leb].
  rewrite (groupLoop_same_scene _ _ _ body1 _ Hbody1).
  cbn [groupLoop app]. rewrite Hh2.
  cbn [String.eqb Ascii.eqb Bool.eqb length Nat.ltb Nat.leb mapSet].
  rewrite <- (app_nil_r body2) at 1.
  rewrite (groupLoop_same_scene _ _ _ body2 [] Hbody2).
  cbn [groupLoop app length Nat.ltb Nat.leb mapSet].
  rewrite Hsame, Nat.eqb_refl. done.
Qed.

(** Two scenes whose headings have no number yet. *)
Lemma groupBlocksByScene_same_number_witness :
  groupBlocksByScene
    [ newBlock "1" "scene-heading" "INT. BAR"; newBlock "2" "action" "Rain.";
      newBlock "3" "scene-heading" "EXT. STREET"; newBlock "4" "action" "Sun." ]
  = [ (0%nat, [ newBlock "3" "scene-heading" "EXT. STREET";
                newBlock "4" "action" "Sun." ]) ].
Proof.
  apply (groupBlocksByScene_same_number
           (newBlock "1" "scene-heading" "INT. BAR")
           (newBlock "3" "scene-heading" "EXT. STREET")
           [ newBlock "2" "action" "Rain." ] [ newBlock "4" "action" "Sun." ]);
    try reflexivity.
  - repeat constructor. discriminate.
  - repeat constructor. discriminate.
Defined.
